(** * LIS serial interface: stream framer and GLUQUANT HbA1c protocol parser

    A shallow embedding of [LISSerialInterface] (lis-serial-interface.js):
    the character-level framing state machine ([_onData], [_consumeChar],
    [_handleCompleteMessage]) and the tagged-section decoder
    ([parseProtocol]), with the properties of the specification proved or
    refuted on the embedding.

    Console output ([console.log], [console.warn]), the serial port and the
    bookkeeping field [lastByteAt] are not modelled. *)

From Stdlib Require Import String Ascii.
From Stdlib Require Import List NArith ZArith Bool Lia Floats.
Import Corelib.Init.Datatypes ListNotations.

(** ** JavaScript strings

    [for (const char of ascii)] walks a string by Unicode code points, so a
    character is a code point; [.length] counts UTF-16 code units, two for a
    code point outside the Basic Multilingual Plane. *)

Module JsString.

Definition char := N.
Definition jsstring := list char.

(** A character literal, as its code point. *)
Definition chr (a : ascii) : char := N_of_ascii a.
Arguments chr a%_char.

(** A string literal of the source, as the list of its code points. *)
Definition lit (s : string) : jsstring :=
  List.map N_of_ascii (list_ascii_of_string s).
Arguments lit s%_string.

Definition units (c : char) : Z := if (c <? 65536)%N then 1%Z else 2%Z.

(** [s.length] *)
Fixpoint strlen (s : jsstring) : Z :=
  match s with
  | [] => 0%Z
  | c :: s' => (units c + strlen s')%Z
  end.

(** [s.startsWith(p)] *)
Fixpoint startsWith (s p : jsstring) {struct p} : bool :=
  match p, s with
  | [], _ => true
  | _ :: _, [] => false
  | a :: p', b :: s' => (a =? b)%N && startsWith s' p'
  end.

(** [s.includes(sub)]: [sub] occurs at some offset of [s]. *)
Fixpoint includes (s sub : jsstring) : bool :=
  startsWith s sub ||
  match s with
  | [] => false
  | _ :: s' => includes s' sub
  end.

(** [s.endsWith(p)] *)
Definition endsWith (s p : jsstring) : bool :=
  (length p <=? length s)%nat
  && startsWith (skipn (length s - length p) s) p.

(** The number of offsets of [s] at which [sub] occurs. *)
Fixpoint occurrences (s sub : jsstring) : nat :=
  (if startsWith s sub then 1 else 0) +
  match s with
  | [] => 0
  | _ :: s' => occurrences s' sub
  end.

(** [c.repeat(n)] for a one-character string. *)
Definition replicate (n : N) (c : char) : jsstring := repeat c (N.to_nat n).
Arguments replicate n%_N c.

End JsString.
Import JsString.

(** ** The framer: [_onData], [_consumeChar], [_handleCompleteMessage] *)

Inductive FramerState := IDLE | RECEIVING.

Definition FramerState_eqb (a b : FramerState) : bool :=
  match a, b with
  | IDLE, IDLE | RECEIVING, RECEIVING => true
  | _, _ => false
  end.

(** The streaming state of a [LISSerialInterface] instance: the two fields
    that [_consumeChar] reads and writes. *)
Record Framer := mkFramer { state : FramerState; messageBuffer : jsstring }.

(** The constructor: [this.state = "IDLE"; this.messageBuffer = ""]. *)
Definition fresh : Framer := mkFramer IDLE [].

Definition SEND_OPEN : jsstring := lit "<SEND>".
Definition SEND_CLOSE : jsstring := lit "</SEND>".
Definition CEILING : Z := 100000.

(** The delimiter the current state is waiting for. *)
Definition awaited (s : FramerState) : jsstring :=
  match s with IDLE => SEND_OPEN | RECEIVING => SEND_CLOSE end.

(** What the instance emits to its listeners. *)
Inductive event (R E : Type) :=
| emit_results (parsed : R)   (* [this.emit("results", parsed)] *)
| emit_error (err : E).       (* [this.emit("error", err)] *)
Arguments emit_results {R E} parsed.
Arguments emit_error {R E} err.

Section Framing.

Variables R E : Type.

(** [this.parseProtocol(message)]: a method call on the instance, which
    returns the parsed record or throws. *)
Variable parse : Framer -> jsstring -> E + R.

(** [try { emit("results", this.parseProtocol(message)) }
     catch (err) { emit("error", err) }], with listeners that return. *)
Definition _handleCompleteMessage (this : Framer) (message : jsstring)
  : list (event R E) :=
  match parse this message with
  | inr parsed => [emit_results parsed]
  | inl err => [emit_error err]
  end.

Definition _consumeChar (this : Framer) (c : char)
  : Framer * list (event R E) :=
  let this := mkFramer (state this) (messageBuffer this ++ [c]) in
  (* Detect START *)
  if FramerState_eqb (state this) IDLE
     && includes (messageBuffer this) SEND_OPEN
  then (mkFramer RECEIVING SEND_OPEN, [])
  else
    (* Detect END *)
    let '(this, out) :=
      if FramerState_eqb (state this) RECEIVING
         && includes (messageBuffer this) SEND_CLOSE
      then
        let fullMessage := messageBuffer this in
        let this := mkFramer IDLE [] in
        (this, _handleCompleteMessage this fullMessage)
      else (this, [])
    in
    (* Safety: prevent runaway memory *)
    if (strlen (messageBuffer this) >? CEILING)%Z
    then (mkFramer IDLE [], out)
    else (this, out).

(** [for (const char of ascii) this._consumeChar(char)], where [data] is
    the text [ascii] of the chunk ([data.toString("utf8")]). *)
Fixpoint _onData (this : Framer) (data : jsstring)
  : Framer * list (event R E) :=
  match data with
  | [] => (this, [])
  | c :: data' =>
      let '(this1, out1) := _consumeChar this c in
      let '(this2, out2) := _onData this1 data' in
      (this2, out1 ++ out2)
  end.

(** The transport delivers the chunks one [data] event after the other. *)
Fixpoint feed (this : Framer) (chunks : list jsstring)
  : Framer * list (event R E) :=
  match chunks with
  | [] => (this, [])
  | data :: chunks' =>
      let '(this1, out1) := _onData this data in
      let '(this2, out2) := feed this1 chunks' in
      (this2, out1 ++ out2)
  end.

End Framing.

Arguments _handleCompleteMessage {R E} parse this message.
Arguments _consumeChar {R E} parse this c.
Arguments _onData {R E} parse this data.
Arguments feed {R E} parse this chunks.

(** The complete messages a run hands to the decoder: the framer run with a
    decoder that returns its argument. *)
Definition echo : Framer -> jsstring -> jsstring + jsstring :=
  fun _ message => inr message.

Definition message_of (ev : event jsstring jsstring) : jsstring :=
  match ev with emit_results m => m | emit_error m => m end.

Definition frames (this : Framer) (chunks : list jsstring) : list jsstring :=
  List.map message_of (snd (feed echo this chunks)).

(** A complete wire-format message text: it begins with the start delimiter
    and ends with the first occurrence of the end delimiter. *)
Definition complete_message (m : jsstring) : bool :=
  startsWith m SEND_OPEN && endsWith m SEND_CLOSE
  && negb (includes (removelast m) SEND_CLOSE).

(** The state invariant of the framer. *)
Definition framer_inv (this : Framer) : bool :=
  match state this with
  | RECEIVING =>
      startsWith (messageBuffer this) SEND_OPEN
      && negb (includes (messageBuffer this) SEND_CLOSE)
  | IDLE => negb (includes (messageBuffer this) SEND_OPEN)
  end.

(** Delimiter-bounded: starts with the start delimiter, ends with the end
    delimiter, and holds the end delimiter once. *)
Definition well_framed (m : jsstring) : bool :=
  startsWith m SEND_OPEN && endsWith m SEND_CLOSE
  && (occurrences m SEND_CLOSE =? 1)%nat.

(** ** Strings, continued: what the decoder uses *)

Module JsText.

Definition LF : char := 10%N.
Definition CR : char := 13%N.

(** LineTerminator: LF, CR, LS, PS. *)
Definition isLineTerminator (c : char) : bool :=
  ((c =? LF) || (c =? CR) || (c =? 8232) || (c =? 8233))%N.

(** WhiteSpace and LineTerminator: what [trim] strips, what [\s] matches and
    what the numeric conversions skip. *)
Definition isWhiteSpace (c : char) : bool :=
  ((c =? 9) || (c =? 11) || (c =? 12) || (c =? 32) || (c =? 160)
   || (c =? 5760) || ((8192 <=? c) && (c <=? 8202)) || (c =? 8239)
   || (c =? 8287) || (c =? 12288) || (c =? 65279))%N
  || isLineTerminator c.

Fixpoint dropWhile (p : char -> bool) (s : jsstring) : jsstring :=
  match s with
  | c :: s' => if p c then dropWhile p s' else s
  | [] => []
  end.

(** [s.trimStart()], [s.trimEnd()], [s.trim()] *)
Definition trimStart (s : jsstring) : jsstring := dropWhile isWhiteSpace s.
Definition trimEnd (s : jsstring) : jsstring :=
  rev (dropWhile isWhiteSpace (rev s)).
Definition trim (s : jsstring) : jsstring := trimEnd (trimStart s).

(** [s.split(sep)] for a one-character separator. *)
Fixpoint split (sep : char) (s : jsstring) : list jsstring :=
  match s with
  | [] => [[]]
  | c :: s' =>
      if (c =? sep)%N then [] :: split sep s'
      else match split sep s' with
           | piece :: pieces => (c :: piece) :: pieces
           | [] => [[c]]
           end
  end.

(** [s.replace(/\r\n/g, "\n")] *)
Fixpoint crlf_to_lf (s : jsstring) : jsstring :=
  match s with
  | [] => []
  | c :: s' =>
      match s' with
      | d :: s'' =>
          if ((c =? CR) && (d =? LF))%N then LF :: crlf_to_lf s''
          else c :: crlf_to_lf s'
      | [] => [c]
      end
  end.

(** [s.replace(/\r/g, "\n")] *)
Definition cr_to_lf (s : jsstring) : jsstring :=
  List.map (fun c => if (c =? CR)%N then LF else c) s.

(** String equality, [===] on strings. *)
Fixpoint streq (s t : jsstring) : bool :=
  match s, t with
  | [], [] => true
  | a :: s', b :: t' => (a =? b)%N && streq s' t'
  | _, _ => false
  end.

(** A string is falsy exactly when it is empty. *)
Definition truthy (s : jsstring) : bool :=
  match s with [] => false | _ :: _ => true end.

End JsText.
Import JsText.

(** ** Regular expressions

    The three patterns of [parseProtocol] are built from literal
    characters, a starred character class (greedy [C*] or lazy [C*?]), one
    capture group and concatenation. The matcher is the backtracking one
    of the language: a continuation stands for the rest of the pattern, and
    a star tries its alternatives in priority order. *)

Module Regex.

Inductive regex :=
| Lit (s : jsstring)
| Star (greedy : bool) (cls : char -> bool)
| Group (r : regex)
| Seq (r1 r2 : regex).

Fixpoint star_greedy {A} (cls : char -> bool) (s : jsstring)
    (k : jsstring -> option A) : option A :=
  match s with
  | c :: s' =>
      if cls c then
        match star_greedy cls s' k with
        | Some a => Some a
        | None => k s
        end
      else k s
  | [] => k []
  end.

Fixpoint star_lazy {A} (cls : char -> bool) (s : jsstring)
    (k : jsstring -> option A) : option A :=
  match k s with
  | Some a => Some a
  | None =>
      match s with
      | c :: s' => if cls c then star_lazy cls s' k else None
      | [] => None
      end
  end.

(** [rmatch r s cap k]: match [r] at the head of [s], with [cap] the capture
    so far ([None] is [undefined]), then the rest of the pattern [k]. *)
Fixpoint rmatch {A} (r : regex) (s : jsstring) (cap : option jsstring)
    (k : jsstring -> option jsstring -> option A) : option A :=
  match r with
  | Lit l => if startsWith s l then k (skipn (length l) s) cap else None
  | Star true cls => star_greedy cls s (fun rest => k rest cap)
  | Star false cls => star_lazy cls s (fun rest => k rest cap)
  | Group r' =>
      rmatch r' s cap
        (fun rest _ => k rest (Some (firstn (length s - length rest) s)))
  | Seq r1 r2 => rmatch r1 s cap (fun rest cap' => rmatch r2 rest cap' k)
  end.

(** [s.match(r)] for a pattern without the [g] flag: the first offset at
    which the pattern matches; the result is [m[1]], [None] for [null]. *)
Fixpoint regex_match (r : regex) (s : jsstring) : option (option jsstring) :=
  match rmatch r s None (fun _ cap => Some cap) with
  | Some m1 => Some m1
  | None =>
      match s with
      | [] => None
      | _ :: s' => regex_match r s'
      end
  end.

(** [.] (no [s] flag), [\s] and [[\s\S]]. *)
Definition dot (c : char) : bool := negb (isLineTerminator c).
Definition space (c : char) : bool := isWhiteSpace c.
Definition any (c : char) : bool := true.

(** The words of a pattern. *)
Fixpoint lang (r : regex) (w : jsstring) : Prop :=
  match r with
  | Lit l => w = l
  | Star _ cls => Forall (fun c => cls c = true) w
  | Group r' => lang r' w
  | Seq r1 r2 => exists w1 w2, w = w1 ++ w2 /\ lang r1 w1 /\ lang r2 w2
  end.

(** The pattern has a capture group on every path. *)
Fixpoint has_group (r : regex) : bool :=
  match r with
  | Group _ => true
  | Seq r1 r2 => has_group r1 || has_group r2
  | Lit _ | Star _ _ => false
  end.

End Regex.
Import Regex.

(** [/<M>(.*?)<\/M>/] *)
Definition re_M : regex :=
  Seq (Lit (lit "<M>")) (Seq (Group (Star false dot)) (Lit (lit "</M>"))).

(** [/<I>\s*([\s\S]*?)\s*<\/I>/] *)
Definition re_I : regex :=
  Seq (Lit (lit "<I>"))
    (Seq (Star true space)
       (Seq (Group (Star false any))
          (Seq (Star true space) (Lit (lit "</I>"))))).

(** [/<R>\s*([\s\S]*?)\s*<\/R>/] *)
Definition re_R : regex :=
  Seq (Lit (lit "<R>"))
    (Seq (Star true space)
       (Seq (Group (Star false any))
          (Seq (Star true space) (Lit (lit "</R>"))))).

(** A pattern that opens and closes with literal tags: its words. *)
Definition tagged (r : regex) (open close : jsstring) : Prop :=
  forall w, lang r w -> exists inner, w = open ++ inner ++ close.

(** Line-ending normalisation, the first statement of [parseProtocol]. *)
Definition normalize (raw_ : jsstring) : jsstring :=
  cr_to_lf (crlf_to_lf raw_).

(** No line feed among the characters of [s]. *)
Definition no_LF (s : jsstring) : bool :=
  forallb (fun c => negb (c =? LF)%N) s.

(** ** Numbers

    A JavaScript number is a binary64 float: Rocq's primitive [float], whose
    comparisons are the IEEE ones ([nan] compares false with everything). *)

Module JsNumber.

(** The Number value of the positive decimal [m * 10^e]: the nearest
    binary64, ties to even, with overflow to infinity. (The language lets
    an engine round a literal of more than twenty significant digits
    slightly differently; the engines in use round to nearest.) *)
Definition round_decimal (m : positive) (e : Z) : float :=
  if (0 <=? e)%Z then
    SF2Prim (binary_normalize prec emax (Z.pos m * 10 ^ e) 0 false)
  else
    SF2Prim (SFdiv prec emax (S754_finite false m 0)
               (S754_finite false (Z.to_pos (10 ^ (- e))) 0)).

(** The mathematical value of a numeric literal. *)
Inductive MV :=
| MV_infinity
| MV_decimal (m : N) (e : Z).

Definition number_value (mv : MV) : float :=
  match mv with
  | MV_infinity => infinity
  | MV_decimal N0 _ => zero
  | MV_decimal (Npos m) e => round_decimal m e
  end.

Definition isDigit (c : char) : bool := ((48 <=? c) && (c <=? 57))%N.

(** DecimalDigits: the longest run of digits at the head of [s], read on
    top of the digits [acc] already seen; the count of digits read. *)
Fixpoint scanDigits (acc : N) (n : N) (s : jsstring) : N * N * jsstring :=
  match s with
  | c :: s' =>
      if isDigit c then scanDigits (acc * 10 + (c - 48)) (n + 1) s'
      else (acc, n, s)
  | [] => (acc, n, [])
  end.

(** An optional sign. *)
Definition scanSign (s : jsstring) : bool * jsstring :=
  match s with
  | c :: s' =>
      if (c =? chr "+")%N then (false, s')
      else if (c =? chr "-")%N then (true, s')
      else (false, s)
  | [] => (false, s)
  end.

(** ExponentPart, when one is there in full: [e] or [E], an optional sign,
    at least one digit. *)
Definition scanExponent (s : jsstring) : Z * jsstring :=
  match s with
  | c :: s1 =>
      if ((c =? chr "e") || (c =? chr "E"))%N then
        let '(neg, s2) := scanSign s1 in
        let '(x, n, rest) := scanDigits 0 0 s2 in
        if (n =? 0)%N then (0%Z, s)
        else ((if neg then - Z.of_N x else Z.of_N x)%Z, rest)
      else (0%Z, s)
  | [] => (0%Z, s)
  end.

(** StrUnsignedDecimalLiteral: the longest prefix of [s] that is one, with
    the rest of [s]. *)
Definition scanUnsigned (s : jsstring) : option (MV * jsstring) :=
  if startsWith s (lit "Infinity") then Some (MV_infinity, skipn 8 s)
  else
    let '(i, ni, s1) := scanDigits 0 0 s in
    let '(m, nf, s2) :=
      match s1 with
      | c :: t => if (c =? chr ".")%N then scanDigits i 0 t else (i, 0%N, s1)
      | [] => (i, 0%N, s1)
      end in
    if ((ni =? 0) && (nf =? 0))%N then None
    else
      let '(x, rest) := scanExponent s2 in
      Some (MV_decimal m (x - Z.of_N nf), rest).

(** StrDecimalLiteral: an optional sign and an unsigned literal. *)
Definition scanDecimal (s : jsstring) : option (float * jsstring) :=
  let '(neg, s1) := scanSign s in
  match scanUnsigned s1 with
  | Some (mv, rest) =>
      Some ((if neg then - number_value mv else number_value mv)%float, rest)
  | None => None
  end.

(** [parseFloat(s)]: leading white space is skipped, the longest prefix that
    is a decimal literal is read, and there is [NaN] when there is none. *)
Definition parseFloat (s : jsstring) : float :=
  match scanDecimal (trimStart s) with
  | Some (v, _) => v
  | None => nan
  end.

(** The digits of [0x], [0o] and [0b] literals. *)
Definition digitIn (radix : N) (c : char) : option N :=
  let d :=
    if isDigit c then Some (c - 48)%N
    else if ((97 <=? c) && (c <=? 102))%N then Some (c - 87)%N
    else if ((65 <=? c) && (c <=? 70))%N then Some (c - 55)%N
    else None in
  match d with
  | Some v => if (v <? radix)%N then Some v else None
  | None => None
  end.

Fixpoint scanRadix (radix : N) (acc : N) (s : jsstring) : option N :=
  match s with
  | [] => Some acc
  | c :: s' =>
      match digitIn radix c with
      | Some v => scanRadix radix (acc * radix + v) s'
      | None => None
      end
  end.

(** NonDecimalIntegerLiteral, the whole of [s]. *)
Definition scanNonDecimal (s : jsstring) : option float :=
  match s with
  | z :: x :: (_ :: _) as digits =>
      let radix :=
        if ((x =? chr "x") || (x =? chr "X"))%N then Some 16%N
        else if ((x =? chr "o") || (x =? chr "O"))%N then Some 8%N
        else if ((x =? chr "b") || (x =? chr "B"))%N then Some 2%N
        else None in
      match radix with
      | Some rdx =>
          if (z =? chr "0")%N then
            option_map (fun n => number_value (MV_decimal n 0))
              (scanRadix rdx 0 digits)
          else None
      | None => None
      end
  | _ => None
  end.

(** [Number(x)] for [x] a string or [undefined]: white space is trimmed at
    both ends, the empty string is 0, and anything but a whole numeric
    literal is [NaN]. *)
Definition Number (x : option jsstring) : float :=
  match x with
  | None => nan
  | Some s =>
      match trim s with
      | [] => zero
      | t =>
          match scanNonDecimal t with
          | Some v => v
          | None =>
              match scanDecimal t with
              | Some (v, []) => v
              | _ => nan
              end
          end
      end
  end.

End JsNumber.
Import JsNumber.

(** ** The decoder: [parseProtocol] *)

(** The only exception the code of [parseProtocol] can raise: a property
    read or a method call on [undefined]. *)
Inductive exn := TypeError.

Definition throws (A : Type) : Type := (exn + A)%type.
Definition ret {A} (a : A) : throws A := inr a.
Definition bind {A B} (c : throws A) (k : A -> throws B) : throws B :=
  match c with
  | inl e => inl e
  | inr a => k a
  end.
Notation "x <- c ;; k" := (bind c (fun x => k))
  (at level 61, c at next level, right associativity).

(** [x.f] or [x.f(...)]: throws when [x] is [undefined]. *)
Definition deref {A} (x : option A) : throws A :=
  match x with
  | Some a => inr a
  | None => inl TypeError
  end.

Record MachineInfo := {
  model : option jsstring;
  serialNumber : option jsstring
}.

Record SampleInfo := {
  recordType : option jsstring;
  analysisTime : option jsstring;
  sampleId : option jsstring;
  samplePosition : option jsstring;
  sampleTypeCode : float;
  sampleType : jsstring
}.

Record ResultEntry := {
  value : float;
  unit : jsstring;
  interpretation : option jsstring
}.

(** [result.results], a plain object used as a map: its own properties in
    insertion order, and its prototype when an assignment to the key
    [__proto__] has replaced [Object.prototype] by an entry. (The place of
    integer-like keys in the enumeration order is not modelled.) *)
Record ResultsObject := {
  own : list (jsstring * ResultEntry);
  proto : option ResultEntry
}.

(** A field left [None] is [undefined]; a sub-record left [None] is the
    empty object [{}] of the initial [result]. *)
Record DecodedResult := {
  machineInfo : option MachineInfo;
  sampleInfo : option SampleInfo;
  results : ResultsObject;
  raw : jsstring;
  receivedAt : jsstring
}.

Definition empty_object : ResultsObject := {| own := []; proto := None |}.

Definition PROTO : jsstring := lit "__proto__".
Definition HbA1c : jsstring := lit "HbA1c".

Fixpoint assoc_get (key : jsstring) (l : list (jsstring * ResultEntry))
  : option ResultEntry :=
  match l with
  | [] => None
  | (k, e) :: l' => if streq k key then Some e else assoc_get key l'
  end.

Fixpoint assoc_set (key : jsstring) (e : ResultEntry)
    (l : list (jsstring * ResultEntry)) : list (jsstring * ResultEntry) :=
  match l with
  | [] => [(key, e)]
  | (k, e') :: l' =>
      if streq k key then (k, e) :: l' else (k, e') :: assoc_set key e l'
  end.

(** [o[key] = e]: the key [__proto__] goes to the setter inherited from
    [Object.prototype], which makes [e] the prototype of [o]; any other key
    creates or overwrites an own property. *)
Definition set_entry (o : ResultsObject) (key : jsstring) (e : ResultEntry)
  : ResultsObject :=
  if streq key PROTO then {| own := own o; proto := Some e |}
  else {| own := assoc_set key e (own o); proto := proto o |}.

(** [o[key]] when it is an entry: an own property, or for the key
    [__proto__] the prototype that an assignment installed. *)
Definition get_entry (o : ResultsObject) (key : jsstring)
  : option ResultEntry :=
  if streq key PROTO then proto o else assoc_get key (own o).

(** [typeMap[code]]: the key is the number as a string, which is ["0"]
    exactly when the number is 0 (of either sign), and so on; no other
    number names a property of the table or of [Object.prototype]. *)
Definition typeMap (code : float) : option jsstring :=
  if (code =? 0)%float then Some (lit "whole_blood")
  else if (code =? 1)%float then Some (lit "quality_control")
  else if (code =? 2)%float then Some (lit "calibration")
  else if (code =? 3)%float then Some (lit "diluted")
  else None.

(** [x || d] for strings. *)
Definition or_default (x : option jsstring) (d : jsstring) : jsstring :=
  match x with
  | Some s => if truthy s then s else d
  | None => d
  end.

(** Machine info [<M>] *)
Definition parseMachineInfo (clean : jsstring) : throws (option MachineInfo) :=
  match regex_match re_M clean with
  | Some m1 =>
      body <- deref m1 ;;
      let parts := split (chr "|") body in
      ret (Some {| model := option_map trim (nth_error parts 0);
                   serialNumber := option_map trim (nth_error parts 1) |})
  | None => ret None
  end.

(** Sample info [<I>] *)
Definition parseSampleInfo (clean : jsstring) : throws (option SampleInfo) :=
  match regex_match re_I clean with
  | Some i1 =>
      body <- deref i1 ;;
      let parts := split (chr "|") (trim body) in
      ret (Some {| recordType := nth_error parts 0;
                   analysisTime := nth_error parts 1;
                   sampleId := nth_error parts 2;
                   samplePosition := nth_error parts 3;
                   sampleTypeCode := Number (nth_error parts 4);
                   sampleType :=
                     or_default (typeMap (Number (nth_error parts 4)))
                       (lit "unknown") |})
  | None => ret None
  end.

(** The body of the [forEach]: one trimmed, non-empty line of [<R>]. *)
Definition storeLine (res : ResultsObject) (line : jsstring) : ResultsObject :=
  let parts := split (chr "|") line in
  match nth_error parts 0, nth_error parts 1 with
  | Some key, Some val =>
      if negb (truthy key) || negb (truthy val) then res
      else set_entry res key
             {| value := parseFloat val; unit := lit "%";
                interpretation := None |}
  | _, _ => res
  end.

(** [lines.map((l) => l.trim()).filter(Boolean).forEach(...)] *)
Definition storeLines (res : ResultsObject) (lines : list jsstring)
  : ResultsObject :=
  fold_left storeLine (filter truthy (List.map trim lines)) res.

(** Results [<R>] *)
Definition parseResults (clean : jsstring) : throws ResultsObject :=
  match regex_match re_R clean with
  | Some r1 =>
      body <- deref r1 ;;
      ret (storeLines empty_object (split LF body))
  | None => ret empty_object
  end.

Set Warnings "-inexact-float".

(** [v < 5.7 ? "Normal" : v < 6.5 ? "Prediabetes" : "Diabetes"] *)
Definition interpret (v : float) : jsstring :=
  if (v <? 5.7)%float then lit "Normal"
  else if (v <? 6.5)%float then lit "Prediabetes"
  else lit "Diabetes".

Set Warnings "inexact-float".

(** Clinical interpretation: [if (result.results.HbA1c) ...]. The property
    read finds an own property only, and an entry is an object, so truthy;
    the assignment writes a field of that entry in place. *)
Definition interpretHbA1c (res : ResultsObject) : ResultsObject :=
  match assoc_get HbA1c (own res) with
  | Some e =>
      {| own := assoc_set HbA1c
                  {| value := value e; unit := unit e;
                     interpretation := Some (interpret (value e)) |}
                  (own res);
         proto := proto res |}
  | None => res
  end.

(** [now] is [new Date().toISOString()] at the time of the call. *)
Definition parseProtocol (now : jsstring) (raw_ : jsstring)
  : throws DecodedResult :=
  let clean := normalize raw_ in
  m <- parseMachineInfo clean ;;
  i <- parseSampleInfo clean ;;
  r <- parseResults clean ;;
  ret {| machineInfo := m; sampleInfo := i; results := interpretHbA1c r;
         raw := raw_; receivedAt := now |}.

(** [this.parseProtocol], the decoder that the framer calls; it reads no
    field of the instance. *)
Definition method_parseProtocol (now : jsstring)
  : Framer -> jsstring -> throws DecodedResult :=
  fun _ message => parseProtocol now message.

(** The key half and the value half of a line of the results section, when
    both are there: the first two [|]-separated pieces of the trimmed line,
    neither of them empty. *)
Definition key_value (line : jsstring) : option (jsstring * jsstring) :=
  match split (chr "|") (trim line) with
  | key :: val :: _ =>
      if truthy key && truthy val then Some (key, val) else None
  | _ => None
  end.

(** No [|] among the characters of [s]. *)
Definition no_bar (s : jsstring) : bool :=
  forallb (fun c => negb (c =? chr "|")%N) s.

(** A message whose [HbA1c] line has no number in it. *)
Definition nan_message : jsstring :=
  lit "<SEND>" ++ [LF] ++ lit "<R>" ++ [LF] ++ lit "HbA1c|abc" ++ [LF]
  ++ lit "</R>" ++ [LF] ++ lit "</SEND>".

(** The end-to-end scenario of the specification. *)
Definition scenario_message : jsstring :=
  lit "<SEND>" ++ [LF] ++ lit "<M>GQ-1000|SN123</M>" ++ [LF]
  ++ lit "<I>" ++ [LF] ++ lit "0|2024-01-01T10:00|S1|A1|0" ++ [LF]
  ++ lit "</I>" ++ [LF] ++ lit "<R>" ++ [LF] ++ lit "HbA1c|5.4" ++ [LF]
  ++ lit "</R>" ++ [LF] ++ lit "</SEND>".

(** A results section with a blank line, lines that lack a half and lines
    whose value is not a number. *)
Definition lenient_message : jsstring :=
  lit "<SEND>" ++ [LF] ++ lit "<R>" ++ [LF]
  ++ lit "HbA1c|5.4" ++ [LF] ++ [LF] ++ lit "HbF" ++ [LF]
  ++ lit "|7" ++ [LF] ++ lit "HbA2|" ++ [LF] ++ lit "HbX|abc" ++ [LF]
  ++ lit "__proto__|n/a" ++ [LF]
  ++ lit "</R>" ++ [LF] ++ lit "</SEND>".

(** A sample record whose fifth field, the sample-type code, is empty. *)
Definition blank_code_message : jsstring :=
  lit "<SEND>" ++ [LF] ++ lit "<I>" ++ [LF]
  ++ lit "0|2024-01-01T10:00|S1|A1|" ++ [LF]
  ++ lit "</I>" ++ [LF] ++ lit "</SEND>".

(** A sample record that stops after the sample position. *)
Definition short_sample_message : jsstring :=
  lit "<SEND>" ++ [LF] ++ lit "<I>" ++ [LF]
  ++ lit "0|2024-01-01T10:00|S1|A1" ++ [LF]
  ++ lit "</I>" ++ [LF] ++ lit "</SEND>".

(** Every entry that can be read from the object is without an
    interpretation. *)
Definition plain (res : ResultsObject) : Prop :=
  forall key e, get_entry res key = Some e -> interpretation e = None.

(** The interpretation that [parseProtocol] gives to an [HbA1c] line with
    the value text [val]. *)
Definition interpretation_of (val : jsstring) : option jsstring :=
  match parseProtocol []
          (lit "<SEND><R>HbA1c|" ++ val ++ lit "</R></SEND>") with
  | inr r =>
      match get_entry (results r) HbA1c with
      | Some e => interpretation e
      | None => None
      end
  | inl _ => None
  end.

(** A message body that outgrows the buffer ceiling: 100,000 times the letter
    a between the delimiters. *)
Definition oversized_message : jsstring :=
  SEND_OPEN ++ replicate 100000 (chr "a") ++ SEND_CLOSE.

(** A buffer of exactly 100,000 characters, one character short of a
    complete message. *)
Definition brimful_buffer : jsstring :=
  SEND_OPEN ++ replicate 99988 (chr "a") ++ lit "</SEND".

(** 99,995 characters of noise followed by all of the start delimiter but
    its last character. *)
Definition brimful_noise : jsstring :=
  replicate 99995 (chr "x") ++ lit "<SEND".

(** ** Streams of several messages *)

(** Noise that a fresh framer reads without event: followed by the start
    delimiter, it holds no earlier start delimiter, and it fits under the
    ceiling up to the last character of that delimiter. *)
Definition quiet (noise : jsstring) : bool :=
  negb (includes (noise ++ removelast SEND_OPEN) SEND_OPEN)
  && (strlen (noise ++ removelast SEND_OPEN) <=? CEILING)%Z.

(** What an analyzer sends over time: messages, each after some noise, and
    what follows the last message. *)
Definition stream (items : list (jsstring * jsstring)) (tail : jsstring)
  : jsstring :=
  flat_map (fun item => fst item ++ snd item) items ++ tail.

(** ** The serial port: [start]

    [start] opens the port and registers one handler per port event; what
    the port then does is a sequence of such events. *)

Inductive port_event (E : Type) :=
| port_open (err : option E)   (* the callback of [port.open] *)
| port_data (data : jsstring)  (* ["data"] *)
| port_error (err : E)         (* ["error"] *)
| port_close.                  (* ["close"] *)
Arguments port_open {E} err.
Arguments port_data {E} data.
Arguments port_error {E} err.
Arguments port_close {E}.

(** Everything the instance emits: the events of the framer, and
    [connected] and [disconnected]. *)
Inductive signal (R E : Type) :=
| emit (ev : event R E)
| emit_connected
| emit_disconnected.
Arguments emit {R E} ev.
Arguments emit_connected {R E}.
Arguments emit_disconnected {R E}.

Section Port.

Variables R E : Type.
Variable parse : Framer -> jsstring -> E + R.

(** The handlers that [start] registers. *)
Definition on_port_event (this : Framer) (pe : port_event E)
  : Framer * list (signal R E) :=
  match pe with
  | port_open (Some err) => (this, [emit (emit_error err)])
  | port_open None => (this, [emit_connected])
  | port_data data =>
      let '(this', out) := _onData parse this data in
      (this', List.map emit out)
  | port_error err => (this, [emit (emit_error err)])
  | port_close => (this, [emit_disconnected])
  end.

Fixpoint session (this : Framer) (pes : list (port_event E))
  : Framer * list (signal R E) :=
  match pes with
  | [] => (this, [])
  | pe :: pes' =>
      let '(this1, out1) := on_port_event this pe in
      let '(this2, out2) := session this1 pes' in
      (this2, out1 ++ out2)
  end.

End Port.

Arguments on_port_event {R E} parse this pe.
Arguments session {R E} parse this pes.

(** The chunks among the port events. *)
Definition data_of {E} (pes : list (port_event E)) : list jsstring :=
  flat_map (fun pe => match pe with port_data d => [d] | _ => [] end) pes.

(** The records of the [results] events among the signals. *)
Definition results_of {R E} (out : list (signal R E)) : list R :=
  flat_map (fun s => match s with emit (emit_results r) => [r] | _ => [] end)
    out.

(** The records of the [results] events among the framer's events. *)
Definition parsed_of {R E} (out : list (event R E)) : list R :=
  flat_map (fun ev => match ev with emit_results r => [r] | _ => [] end) out.

(** ** The constructor: [this.options] *)

Module Options.

(** The values an option can hold. *)
Inductive jsval :=
| Undefined
| Null
| Bool (b : bool)
| Num (x : float)
| Str (s : jsstring)
| Obj.   (* any object *)

(** ToBoolean *)
Definition ToBoolean (v : jsval) : bool :=
  match v with
  | Undefined | Null => false
  | Bool b => b
  | Num x => negb ((x =? 0)%float || is_nan x)
  | Str s => truthy s
  | Obj => true
  end.

(** [a || b] *)
Definition or (a b : jsval) : jsval := if ToBoolean a then a else b.

(** [a ?? b] *)
Definition coalesce (a b : jsval) : jsval :=
  match a with
  | Undefined | Null => b
  | _ => a
  end.

Record options := {
  baudRate : jsval;
  dataBits : jsval;
  stopBits : jsval;
  parity : jsval;
  rtscts : jsval;
  logCommunications : jsval;
  debugMode : jsval
}.

(** [options = {}] *)
Definition none : options :=
  {| baudRate := Undefined; dataBits := Undefined; stopBits := Undefined;
     parity := Undefined; rtscts := Undefined;
     logCommunications := Undefined; debugMode := Undefined |}.

(** [this.options] as the constructor sets it. *)
Definition constructor (o : options) : options :=
  {| baudRate := or (baudRate o) (Num 115200);
     dataBits := or (dataBits o) (Num 8);
     stopBits := or (stopBits o) (Num 1);
     parity := or (parity o) (Str (lit "none"));
     rtscts := Bool false;
     logCommunications := coalesce (logCommunications o) (Bool true);
     debugMode := coalesce (debugMode o) (Bool false) |}.

End Options.

(** ** The decoder, continued *)

(** The own keys of the results object. *)
Definition keys (res : ResultsObject) : list jsstring :=
  List.map fst (own res).

(** A section between its tags, white space around its body: the shape of
    [/<I>\s*([\s\S]*?)\s*<\/I>/] and of the pattern of [<R>]. *)
Definition padded (open close : jsstring) : regex :=
  Seq (Lit open)
    (Seq (Star true space)
       (Seq (Group (Star false any)) (Seq (Star true space) (Lit close)))).

(** No carriage return among the characters of [s]. *)
Definition no_CR (s : jsstring) : bool :=
  forallb (fun c => negb (c =? CR)%N) s.

(** The own keys stay distinct, non-empty and other than [__proto__]. *)
Definition tidy (res : ResultsObject) : Prop :=
  NoDup (keys res)
  /\ forall key, In key (keys res) -> truthy key = true /\ key <> PROTO.

(** Every entry that can be read has the unit [%]. *)
Definition percent (res : ResultsObject) : Prop :=
  forall key e, get_entry res key = Some e -> unit e = lit "%".

(** ** Diagnostics: what is written to the console

    The text that [_onData] logs, and the dump of simple-listener.js. *)

Module Diagnostics.

(** The digit of a value below 16, in lower case. *)
Definition hexDigit (d : N) : char :=
  if (d <? 10)%N then (48 + d)%N else (87 + d)%N.

(** A digit or a letter, as the hexadecimal notations use them; an opening
    or closing bracket and [x] besides. *)
Definition isTokenChar (c : char) : bool :=
  (((48 <=? c) && (c <=? 57)) || ((65 <=? c) && (c <=? 90))
   || ((97 <=? c) && (c <=? 122)) || (c =? 91) || (c =? 93))%N.

Fixpoint toString16_from (fuel : nat) (n : N) (acc : jsstring) : jsstring :=
  match fuel with
  | O => acc
  | S fuel' =>
      if (n =? 0)%N then acc
      else toString16_from fuel' (n / 16) (hexDigit (n mod 16) :: acc)
  end.

(** [n.toString(16)] for a non-negative integer. A number of [k] bits has
    at most [k] digits. *)
Definition toString16 (n : N) : jsstring :=
  if (n =? 0)%N then [chr "0"]
  else toString16_from (N.to_nat (N.size n)) n [].

(** [s.padStart(n, c)] for a string [s] of one-unit characters and a
    one-character filler. *)
Definition padStart (n : nat) (c : char) (s : jsstring) : jsstring :=
  repeat c (n - length s) ++ s.

(** [s.toUpperCase()] for ASCII text. *)
Definition toUpperCase (s : jsstring) : jsstring :=
  List.map (fun c => if ((97 <=? c) && (c <=? 122))%N then (c - 32)%N else c)
    s.

(** [/[\x00-\x08\x0B-\x0C\x0E-\x1F\x7F]/]: the control characters but TAB,
    LF and CR. *)
Definition isLogEscaped (c : char) : bool :=
  ((c <=? 8) || ((11 <=? c) && (c <=? 12)) || ((14 <=? c) && (c <=? 31))
   || (c =? 127))%N.

(** [ascii.replace(/[...]/g, (c) => `[0x${c.charCodeAt(0).toString(16)}]`)],
    the text that [_onData] logs. *)
Definition printable (ascii : jsstring) : jsstring :=
  flat_map
    (fun c => if isLogEscaped c then lit "[0x" ++ toString16 c ++ lit "]"
              else [c])
    ascii.

(** [/[\x00-\x1F\x7F]/]: the control characters. *)
Definition isControl (c : char) : bool := ((c <=? 31) || (c =? 127))%N.

(** The replacement of one control character in simple-listener.js. *)
Definition visible (code : char) : jsstring :=
  if (code =? 13)%N then lit "[CR]"
  else if (code =? 10)%N then lit "[LF]"
  else if (code =? 9)%N then lit "[TAB]"
  else lit "[0x" ++ toUpperCase (padStart 2 (chr "0") (toString16 code))
       ++ lit "]".

(** [data.toString("utf8").replace(/[\x00-\x1F\x7F]/g, ...)] of
    simple-listener.js, on the decoded text. *)
Definition readable (text : jsstring) : jsstring :=
  flat_map (fun c => if isControl c then visible c else [c]) text.

(** One byte in [data.toString("hex")]. *)
Definition byteHex (b : N) : jsstring :=
  [hexDigit (b / 16); hexDigit (b mod 16)].

(** [data.toString("hex")] for a buffer of bytes. *)
Definition toString_hex (data : list N) : jsstring := flat_map byteHex data.

(** [s.match(/.{1,2}/g) || []]: one or two characters at a time, line
    terminators left out. *)
Fixpoint match_pairs (s : jsstring) : list jsstring :=
  match s with
  | [] => []
  | a :: s' =>
      if isLineTerminator a then match_pairs s'
      else
        match s' with
        | b :: s'' =>
            if isLineTerminator b then [a] :: match_pairs s''
            else [a; b] :: match_pairs s''
        | [] => [[a]]
        end
  end.

(** [l.slice(i, j)] for [i <= j]. *)
Definition slice {A} (i j : nat) (l : list A) : list A :=
  firstn (j - i) (skipn i l).

(** [l.join(sep)] *)
Fixpoint join (sep : jsstring) (l : list jsstring) : jsstring :=
  match l with
  | [] => []
  | [x] => x
  | x :: l' => x ++ sep ++ join sep l'
  end.

(** The loop [for (let i = 0; i < hex.length; i += 16)]: the offset and the
    chunk of each turn. [fuel] bounds the number of turns. *)
Fixpoint rowsFrom (fuel : nat) (i : nat) (hex : list jsstring)
  : list (nat * list jsstring) :=
  match fuel with
  | O => []
  | S fuel' =>
      if (i <? length hex)%nat
      then (i, slice i (i + 16) hex) :: rowsFrom fuel' (i + 16) hex
      else []
  end.

(** [`${offset}:  ${chunk.join(" ")}`] *)
Definition renderRow (row : nat * list jsstring) : jsstring :=
  padStart 4 (chr "0") (toString16 (N.of_nat (fst row))) ++ lit ":  "
  ++ join (lit " ") (snd row).

(** The rows of the hex dump of a chunk; the loop ends within
    [hex.length] turns. *)
Definition hexRows (data : list N) : list (nat * list jsstring) :=
  let hex := match_pairs (toString_hex data) in
  rowsFrom (length hex) 0 hex.

Definition hexdump (data : list N) : list jsstring :=
  List.map renderRow (hexRows data).

(** A buffer holds bytes. *)
Definition bytes (data : list N) : Prop := Forall (fun b => (b < 256)%N) data.

End Diagnostics.
(** * Properties *)

(** ** Strings *)

Section StringFacts.

Lemma units_pos c : (1 <= units c <= 2)%Z.
Proof. unfold units; destruct (c <? 65536)%N; lia. Qed.

Lemma strlen_app s t : strlen (s ++ t) = (strlen s + strlen t)%Z.
Proof. induction s as [|c s IH]; simpl; [reflexivity | rewrite IH; lia]. Qed.

Lemma replicate_add n m c :
  replicate (n + m) c = replicate n c ++ replicate m c.
Proof. unfold replicate. now rewrite N2Nat.inj_add, repeat_app. Qed.

Lemma strlen_snoc s c : strlen (s ++ [c]) = (strlen s + units c)%Z.
Proof. rewrite strlen_app. cbn [strlen]. lia. Qed.

Lemma strlen_nonneg s : (0 <= strlen s)%Z.
Proof.
  induction s as [|c s IH]; simpl; [lia | pose proof (units_pos c); lia].
Qed.

Lemma startsWith_iff s p :
  startsWith s p = true <-> exists b, s = p ++ b.
Proof.
  revert s; induction p as [|a p IH]; intros s; simpl.
  - split; [exists s; reflexivity | reflexivity].
  - destruct s as [|b s].
    + split; [discriminate | intros [t Ht]; discriminate].
    + rewrite andb_true_iff, N.eqb_eq, IH. split.
      * intros [-> [t ->]]. exists t; reflexivity.
      * intros [t Ht]. injection Ht as -> ->. split; [reflexivity | eauto].
Qed.

Lemma includes_iff s sub :
  includes s sub = true <-> exists a b, s = a ++ sub ++ b.
Proof.
  induction s as [|c s IH]; simpl.
  - rewrite orb_false_r, startsWith_iff. split.
    + intros [b Hb]. exists [], b. exact Hb.
    + intros [a [b Hab]]. destruct a; [eauto | discriminate].
  - rewrite orb_true_iff, startsWith_iff, IH. split.
    + intros [[b Hb] | [a [b Hab]]].
      * exists [], b. exact Hb.
      * exists (c :: a), b. simpl. now rewrite Hab.
    + intros [[|x a] [b Hab]]; simpl in Hab.
      * left; eauto.
      * right. injection Hab as _ ->. eauto.
Qed.

Lemma includes_slice a sub b : includes (a ++ sub ++ b) sub = true.
Proof. apply includes_iff; eauto. Qed.

Lemma not_includes_prefix s t sub :
  includes (s ++ t) sub = false -> includes s sub = false.
Proof.
  intros H. destruct (includes s sub) eqn:Hs; [|reflexivity].
  apply includes_iff in Hs as [a [b ->]].
  rewrite <- H. symmetry. rewrite <- !app_assoc. apply includes_slice.
Qed.

Lemma not_includes_suffix s t sub :
  includes (s ++ t) sub = false -> includes t sub = false.
Proof.
  intros H. destruct (includes t sub) eqn:Ht; [|reflexivity].
  apply includes_iff in Ht as [a [b ->]].
  rewrite <- H. symmetry. rewrite app_assoc. apply includes_slice.
Qed.

(** Appending one character to a string without [sub] can only create an
    occurrence of [sub] that ends at that character. *)
Lemma occurrence_at_end_only s c sub a b :
  includes s sub = false -> s ++ [c] = a ++ sub ++ b -> b = [].
Proof.
  intros Hno Hab.
  destruct (list_eq_dec N.eq_dec b []) as [Hb | Hb]; [exact Hb | exfalso].
  destruct (exists_last Hb) as [b' [c' ->]].
  rewrite !app_assoc in Hab. apply app_inj_tail in Hab as [Hs _].
  rewrite <- app_assoc in Hs. subst s. now rewrite includes_slice in Hno.
Qed.

Lemma includes_last s c sub :
  includes s sub = false -> includes (s ++ [c]) sub = true ->
  exists a, s ++ [c] = a ++ sub.
Proof.
  intros Hno Hyes. apply includes_iff in Hyes as [a [b Hab]].
  pose proof (occurrence_at_end_only _ _ _ _ _ Hno Hab) as ->.
  rewrite app_nil_r in Hab. eauto.
Qed.

Lemma endsWith_iff s p : endsWith s p = true <-> exists a, s = a ++ p.
Proof.
  unfold endsWith. rewrite andb_true_iff, Nat.leb_le, startsWith_iff. split.
  - intros [Hle [b Hb]]. exists (firstn (length s - length p) s).
    assert (Hlen : length (skipn (length s - length p) s) = length p)
      by (rewrite length_skipn; lia).
    rewrite Hb, length_app in Hlen.
    destruct b; [|simpl in Hlen; lia].
    rewrite app_nil_r in Hb. rewrite <- Hb at 2. symmetry. apply firstn_skipn.
  - intros [a ->]. rewrite length_app. split; [lia|].
    exists []. replace (length a + length p - length p) with (length a) by lia.
    now rewrite skipn_app, skipn_all, Nat.sub_diag, app_nil_r.
Qed.

Lemma includes_length s sub :
  includes s sub = true -> length sub <= length s.
Proof.
  intros H. apply includes_iff in H as [a [b ->]].
  rewrite !length_app. lia.
Qed.

Lemma occurrences_none s sub :
  includes s sub = false -> occurrences s sub = 0.
Proof.
  induction s as [|c s IH]; simpl; intros H;
    apply orb_false_iff in H as [-> H]; [reflexivity | now rewrite IH].
Qed.

(** The occurrence created by the last character is the only one. *)
Lemma occurrences_first s c sub :
  includes s sub = false -> includes (s ++ [c]) sub = true ->
  occurrences (s ++ [c]) sub = 1.
Proof.
  induction s as [|x s IH]; intros Hno Hyes.
  - simpl in *. rewrite orb_false_r in Hno.
    destruct (startsWith [c] sub) eqn:Hc.
    + now rewrite Hno.
    + simpl in Hyes. now rewrite Hno in Hyes.
  - pose proof Hno as Hno'. simpl in Hno'.
    apply orb_false_iff in Hno' as [_ Hs].
    change ((x :: s) ++ [c]) with (x :: (s ++ [c])) in *.
    cbn [occurrences]. cbn [includes] in Hyes.
    destruct (startsWith (x :: s ++ [c]) sub) eqn:Hw.
    + apply startsWith_iff in Hw as [b Hb].
      assert (b = []) as ->
        by (eapply (occurrence_at_end_only (x :: s) c sub []); eauto).
      rewrite app_nil_r in Hb.
      rewrite occurrences_none; [reflexivity|].
      destruct (includes (s ++ [c]) sub) eqn:Hi; [|reflexivity].
      apply includes_length in Hi. rewrite <- Hb in Hi. simpl in Hi. lia.
    + simpl in Hyes. now rewrite IH.
Qed.

End StringFacts.

(** ** The framer, one character at a time *)

Section FramerSteps.

Variables R E : Type.
Variable parse : Framer -> jsstring -> E + R.

Local Abbreviation consume := (_consumeChar parse).
Local Abbreviation run := (_onData parse).
Local Abbreviation handle := (_handleCompleteMessage parse).

Lemma consume_start buf c :
  includes (buf ++ [c]) SEND_OPEN = true ->
  consume (mkFramer IDLE buf) c = (mkFramer RECEIVING SEND_OPEN, []).
Proof. intros H. unfold _consumeChar; simpl. now rewrite H. Qed.

Lemma consume_end buf c :
  includes (buf ++ [c]) SEND_CLOSE = true ->
  consume (mkFramer RECEIVING buf) c = (fresh, handle fresh (buf ++ [c])).
Proof. intros H. unfold _consumeChar; simpl. now rewrite H. Qed.

Lemma consume_idle_keep buf c :
  includes (buf ++ [c]) SEND_OPEN = false ->
  (strlen (buf ++ [c]) <= CEILING)%Z ->
  consume (mkFramer IDLE buf) c = (mkFramer IDLE (buf ++ [c]), []).
Proof.
  intros H Hlen. unfold _consumeChar; simpl. rewrite H; simpl.
  destruct (Z.gtb_spec (strlen (buf ++ [c])) CEILING); [lia | reflexivity].
Qed.

Lemma consume_receiving_keep buf c :
  includes (buf ++ [c]) SEND_CLOSE = false ->
  (strlen (buf ++ [c]) <= CEILING)%Z ->
  consume (mkFramer RECEIVING buf) c = (mkFramer RECEIVING (buf ++ [c]), []).
Proof.
  intros H Hlen. unfold _consumeChar; simpl. rewrite H; simpl.
  destruct (Z.gtb_spec (strlen (buf ++ [c])) CEILING); [lia | reflexivity].
Qed.

Lemma consume_overflow this c :
  includes (messageBuffer this ++ [c]) (awaited (state this)) = false ->
  (strlen (messageBuffer this ++ [c]) > CEILING)%Z ->
  consume this c = (fresh, []).
Proof.
  destruct this as [[|] buf]; simpl; intros H Hlen;
    unfold _consumeChar; simpl; rewrite H; simpl;
    (destruct (Z.gtb_spec (strlen (buf ++ [c])) CEILING); [reflexivity | lia]).
Qed.

Lemma run_app this a b :
  run this (a ++ b) =
  let '(this1, out1) := run this a in
  let '(this2, out2) := run this1 b in
  (this2, out1 ++ out2).
Proof.
  revert this; induction a as [|c a IH]; intros this; simpl.
  - now destruct (run this b).
  - destruct (consume this c) as [this1 out1]. rewrite IH.
    destruct (run this1 a) as [this2 out2].
    destruct (run this2 b) as [this3 out3].
    now rewrite app_assoc.
Qed.

(** Chunk boundaries are invisible: only one buffer lives across chunks. *)
Lemma feed_concat this chunks :
  feed parse this chunks = run this (List.concat chunks).
Proof.
  revert this; induction chunks as [|d chunks IH]; intros this; simpl.
  - reflexivity.
  - rewrite run_app. destruct (run this d) as [this1 out1].
    now rewrite IH.
Qed.

Lemma run_idle_keep cs : forall buf,
  includes (buf ++ cs) SEND_OPEN = false ->
  (strlen (buf ++ cs) <= CEILING)%Z ->
  run (mkFramer IDLE buf) cs = (mkFramer IDLE (buf ++ cs), []).
Proof.
  induction cs as [|c cs IH]; intros buf Hno Hlen; simpl.
  - now rewrite app_nil_r.
  - replace (buf ++ c :: cs) with ((buf ++ [c]) ++ cs) in *
      by now rewrite <- app_assoc.
    rewrite consume_idle_keep.
    + now rewrite IH.
    + eapply not_includes_prefix; eassumption.
    + rewrite strlen_app in Hlen. pose proof (strlen_nonneg cs). lia.
Qed.

Lemma run_receiving_keep cs : forall buf,
  includes (buf ++ cs) SEND_CLOSE = false ->
  (strlen (buf ++ cs) <= CEILING)%Z ->
  run (mkFramer RECEIVING buf) cs = (mkFramer RECEIVING (buf ++ cs), []).
Proof.
  induction cs as [|c cs IH]; intros buf Hno Hlen; simpl.
  - now rewrite app_nil_r.
  - replace (buf ++ c :: cs) with ((buf ++ [c]) ++ cs) in *
      by now rewrite <- app_assoc.
    rewrite consume_receiving_keep.
    + now rewrite IH.
    + eapply not_includes_prefix; eassumption.
    + rewrite strlen_app in Hlen. pose proof (strlen_nonneg cs). lia.
Qed.

(** The six characters of the start delimiter take a fresh framer to
    [RECEIVING] with the delimiter as its buffer. *)
Lemma run_open : run fresh SEND_OPEN = (mkFramer RECEIVING SEND_OPEN, []).
Proof. reflexivity. Qed.

(** The framing does not depend on the decoder: the state is the one of
    the run with [echo], and the events are the decoder's outcomes on the
    framed messages, each decoded on the instance as already reset. *)
Lemma consume_echo this c :
  consume this c =
  (fst (_consumeChar echo this c),
   flat_map (fun ev => handle fresh (message_of ev))
     (snd (_consumeChar echo this c))).
Proof.
  unfold _consumeChar; simpl.
  destruct (FramerState_eqb (state this) IDLE
            && includes (messageBuffer this ++ [c]) SEND_OPEN);
    [reflexivity|].
  destruct (FramerState_eqb (state this) RECEIVING
            && includes (messageBuffer this ++ [c]) SEND_CLOSE); simpl.
  - now rewrite app_nil_r.
  - now destruct (strlen (messageBuffer this ++ [c]) >? CEILING)%Z.
Qed.

Lemma run_echo data : forall this,
  run this data =
  (fst (_onData echo this data),
   flat_map (fun ev => handle fresh (message_of ev))
     (snd (_onData echo this data))).
Proof.
  induction data as [|c data IH]; intros this; simpl; [reflexivity|].
  rewrite consume_echo.
  destruct (_consumeChar echo this c) as [this1 out1]; simpl.
  rewrite IH.
  destruct (_onData echo this1 data) as [this2 out2]; simpl.
  now rewrite flat_map_app.
Qed.

End FramerSteps.

Lemma feed_frames {R E} (parse : Framer -> jsstring -> E + R) this chunks :
  feed parse this chunks =
  (fst (feed echo this chunks),
   flat_map (_handleCompleteMessage parse fresh) (frames this chunks)).
Proof.
  unfold frames. rewrite !feed_concat, run_echo.
  simpl. f_equal.
  now rewrite (flat_map_concat_map (_handleCompleteMessage parse fresh)),
    map_map, <- flat_map_concat_map.
Qed.

(** ** Complete messages *)

Lemma open_has_no_close : includes SEND_OPEN SEND_CLOSE = false.
Proof. reflexivity. Qed.

Lemma complete_message_inv m :
  complete_message m = true ->
  exists mid c,
    m = SEND_OPEN ++ mid ++ [c]
    /\ includes (SEND_OPEN ++ mid) SEND_CLOSE = false
    /\ includes m SEND_CLOSE = true.
Proof.
  unfold complete_message. rewrite !andb_true_iff, negb_true_iff.
  intros [[Hs He] Hno].
  apply startsWith_iff in Hs as [b ->].
  apply endsWith_iff in He as [a Ha].
  assert (Hin : includes (SEND_OPEN ++ b) SEND_CLOSE = true).
  { rewrite Ha. rewrite <- (app_nil_r SEND_CLOSE) at 1. apply includes_slice. }
  destruct (list_eq_dec N.eq_dec b []) as [-> | Hb].
  { rewrite app_nil_r, open_has_no_close in Hin. discriminate. }
  destruct (exists_last Hb) as [mid [c ->]].
  exists mid, c. split; [reflexivity | split; [|exact Hin]].
  now rewrite app_assoc, removelast_last in Hno.
Qed.

Lemma run_complete_message {R E} (parse : Framer -> jsstring -> E + R) m :
  complete_message m = true ->
  (strlen m <= CEILING + 1)%Z ->
  _onData parse fresh m = (fresh, _handleCompleteMessage parse fresh m).
Proof.
  intros Hm Hlen.
  destruct (complete_message_inv m Hm) as [mid [c [-> [Hno Hyes]]]].
  rewrite app_assoc in Hyes, Hlen.
  rewrite strlen_snoc in Hlen. pose proof (units_pos c).
  rewrite run_app, run_open, run_app, run_receiving_keep
    by (assumption || lia).
  cbn [_onData]. rewrite consume_end by assumption.
  cbn [app]. now rewrite app_nil_r, <- app_assoc.
Qed.

(** ** The framer invariant and the position of the framed messages *)

Lemma startsWith_snoc s c p :
  startsWith s p = true -> startsWith (s ++ [c]) p = true.
Proof.
  rewrite !startsWith_iff. intros [b ->]. exists (b ++ [c]).
  now rewrite app_assoc.
Qed.

Lemma well_framed_first buf c :
  startsWith buf SEND_OPEN = true ->
  includes buf SEND_CLOSE = false ->
  includes (buf ++ [c]) SEND_CLOSE = true ->
  well_framed (buf ++ [c]) = true.
Proof.
  intros Hs Hno Hyes. unfold well_framed.
  rewrite startsWith_snoc by assumption.
  rewrite (proj2 (endsWith_iff _ _) (includes_last _ _ _ Hno Hyes)).
  now rewrite occurrences_first.
Qed.

(** [consumed] is the input read so far: the buffer is always its tail, and
    every message comes out as the tail of the input read so far. *)
Lemma consume_inv this c consumed :
  framer_inv this = true ->
  (exists a, consumed = a ++ messageBuffer this) ->
  framer_inv (fst (_consumeChar echo this c)) = true
  /\ (exists a, consumed ++ [c]
                = a ++ messageBuffer (fst (_consumeChar echo this c)))
  /\ Forall (fun ev => well_framed (message_of ev) = true
                       /\ exists a, consumed ++ [c] = a ++ message_of ev)
       (snd (_consumeChar echo this c)).
Proof.
  destruct this as [[|] buf]; unfold framer_inv; cbn [fst snd state messageBuffer]; intros Hinv [a ->].
  - apply negb_true_iff in Hinv.
    destruct (includes (buf ++ [c]) SEND_OPEN) eqn:Hopen.
    + rewrite consume_start by assumption. cbn [fst snd state messageBuffer message_of].
      destruct (includes_last _ _ _ Hinv Hopen) as [a' Ha'].
      repeat split; [|constructor].
      exists (a ++ a'). now rewrite <- !app_assoc, Ha'.
    + destruct (Z.gtb_spec (strlen (buf ++ [c])) CEILING) as [Hlen | Hlen].
      * rewrite consume_overflow by (simpl; assumption || lia). cbn [fst snd state messageBuffer fresh].
        repeat split; [|constructor].
        exists ((a ++ buf) ++ [c]). now rewrite app_nil_r.
      * rewrite consume_idle_keep by assumption. cbn [fst snd state messageBuffer message_of]. rewrite Hopen.
        repeat split; [|constructor].
        exists a. now rewrite app_assoc.
  - apply andb_true_iff in Hinv as [Hs Hno]. apply negb_true_iff in Hno.
    destruct (includes (buf ++ [c]) SEND_CLOSE) eqn:Hclose.
    + rewrite consume_end by assumption. cbn [fst snd state messageBuffer message_of].
      repeat split.
      * exists ((a ++ buf) ++ [c]). now rewrite app_nil_r.
      * constructor; [|constructor]. cbn [message_of]. split.
        -- now apply well_framed_first.
        -- exists a. now rewrite app_assoc.
    + destruct (Z.gtb_spec (strlen (buf ++ [c])) CEILING) as [Hlen | Hlen].
      * rewrite consume_overflow by (simpl; assumption || lia). cbn [fst snd state messageBuffer fresh].
        repeat split; [|constructor].
        exists ((a ++ buf) ++ [c]). now rewrite app_nil_r.
      * rewrite consume_receiving_keep by assumption. cbn [fst snd state messageBuffer message_of].
        rewrite Hclose, startsWith_snoc by assumption.
        repeat split; [|constructor].
        exists a. now rewrite app_assoc.
Qed.

Lemma run_inv data : forall this consumed,
  framer_inv this = true ->
  (exists a, consumed = a ++ messageBuffer this) ->
  framer_inv (fst (_onData echo this data)) = true
  /\ (exists a, consumed ++ data
                = a ++ messageBuffer (fst (_onData echo this data)))
  /\ Forall (fun ev => well_framed (message_of ev) = true
                       /\ exists a b, consumed ++ data = a ++ message_of ev ++ b)
       (snd (_onData echo this data)).
Proof.
  induction data as [|c data IH]; intros this consumed Hinv Hbuf; simpl.
  - rewrite app_nil_r. auto.
  - destruct (consume_inv this c consumed Hinv Hbuf) as [Hinv1 [Hbuf1 Hout1]].
    destruct (_consumeChar echo this c) as [this1 out1]; simpl in *.
    destruct (IH this1 (consumed ++ [c]) Hinv1 Hbuf1) as [Hinv2 [Hbuf2 Hout2]].
    destruct (_onData echo this1 data) as [this2 out2]; simpl in *.
    rewrite <- app_assoc in Hbuf2, Hout2. simpl in Hbuf2, Hout2.
    repeat split; [assumption | assumption |].
    apply Forall_app. split; [|exact Hout2].
    eapply Forall_impl; [|exact Hout1].
    intros ev [Hw [a Ha]]. split; [exact Hw|].
    exists a, data.
    change (consumed ++ c :: data) with (consumed ++ [c] ++ data).
    now rewrite app_assoc, Ha, <- app_assoc.
Qed.

Lemma frames_inv chunks :
  framer_inv (fst (feed echo fresh chunks)) = true
  /\ Forall (fun m => well_framed m = true
                      /\ exists a b, List.concat chunks = a ++ m ++ b)
       (frames fresh chunks).
Proof.
  unfold frames. rewrite feed_concat.
  destruct (run_inv (List.concat chunks) fresh [] eq_refl
              (ex_intro _ [] eq_refl)) as [Hinv [_ Hout]].
  split; [exact Hinv|]. now apply Forall_map.
Qed.

(** The buffer never outgrows the ceiling between two characters, so a
    framed message has at most one character more than the ceiling. *)
Lemma consume_bound this c :
  (strlen (messageBuffer this) <= CEILING)%Z ->
  (strlen (messageBuffer (fst (_consumeChar echo this c))) <= CEILING)%Z
  /\ Forall (fun ev => exists buf, message_of ev = buf ++ [c]
                                   /\ (strlen buf <= CEILING)%Z)
       (snd (_consumeChar echo this c)).
Proof.
  destruct this as [s buf]; cbn [messageBuffer]; intros Hlen.
  unfold _consumeChar; cbn [state messageBuffer].
  destruct (FramerState_eqb s IDLE && includes (buf ++ [c]) SEND_OPEN);
    [split; [now vm_compute | constructor]|].
  destruct (FramerState_eqb s RECEIVING && includes (buf ++ [c]) SEND_CLOSE).
  - cbn. split; [now vm_compute|].
    constructor; [exists buf; split; [reflexivity | exact Hlen] | constructor].
  - cbn [messageBuffer].
    destruct (Z.gtb_spec (strlen (buf ++ [c])) CEILING); cbn [fst snd];
      (split; [|constructor]).
    + now vm_compute.
    + cbn [messageBuffer]. lia.
Qed.

Lemma run_bound data : forall this,
  (strlen (messageBuffer this) <= CEILING)%Z ->
  (strlen (messageBuffer (fst (_onData echo this data))) <= CEILING)%Z
  /\ Forall (fun ev => exists buf c, message_of ev = buf ++ [c]
                                     /\ (strlen buf <= CEILING)%Z)
       (snd (_onData echo this data)).
Proof.
  induction data as [|c data IH]; intros this Hlen; cbn [_onData].
  - split; [exact Hlen | constructor].
  - destruct (consume_bound this c Hlen) as [Hlen1 Hout1].
    destruct (_consumeChar echo this c) as [this1 out1]; cbn [fst snd] in *.
    destruct (IH this1 Hlen1) as [Hlen2 Hout2].
    destruct (_onData echo this1 data) as [this2 out2]; cbn [fst snd] in *.
    split; [exact Hlen2|]. apply Forall_app. split; [|exact Hout2].
    eapply Forall_impl; [|exact Hout1]. intros ev [buf Hbuf]. eauto.
Qed.

Lemma framed_messages_fit chunks m :
  In m (frames fresh chunks) -> (strlen m <= CEILING + 1)%Z.
Proof.
  intros Hin.
  destruct (frames_inv chunks) as [_ Hwell].
  rewrite Forall_forall in Hwell. destruct (Hwell m Hin) as [Hw _].
  unfold frames in Hin. rewrite feed_concat in Hin.
  destruct (run_bound (List.concat chunks) fresh) as [_ Hb];
    [now vm_compute|].
  apply in_map_iff in Hin as [ev [<- Hev]].
  rewrite Forall_forall in Hb. destruct (Hb ev Hev) as [buf [c [Hm Hlen]]].
  unfold well_framed in Hw. apply andb_true_iff in Hw as [Hw _].
  apply andb_true_iff in Hw as [_ Hend].
  apply endsWith_iff in Hend as [a Ha]. rewrite Hm in Ha |- *.
  change SEND_CLOSE with (removelast SEND_CLOSE ++ [chr ">"]) in Ha.
  rewrite app_assoc in Ha. apply app_inj_tail in Ha as [_ ->].
  rewrite strlen_snoc. change (units (chr ">")) with 1%Z. lia.
Qed.

(** The bound of 100,001 characters is exact: no longer text is ever
    emitted, whatever the input. *)
Lemma longer_messages_are_never_emitted chunks m :
  (strlen m > CEILING + 1)%Z -> ~ In m (frames fresh chunks).
Proof.
  intros Hlong Hin. apply framed_messages_fit in Hin. lia.
Qed.

(** ** Overflow *)

(** A message in progress whose buffer outgrows the ceiling is dropped: the
    framer continues as a fresh one on what follows. *)
Lemma run_overflow {R E} (parse : Framer -> jsstring -> E + R) body c tail :
  includes (SEND_OPEN ++ body ++ [c]) SEND_CLOSE = false ->
  (strlen (SEND_OPEN ++ body) <= CEILING)%Z ->
  (strlen (SEND_OPEN ++ body ++ [c]) > CEILING)%Z ->
  _onData parse fresh (SEND_OPEN ++ body ++ [c] ++ tail)
  = _onData parse fresh tail.
Proof.
  intros Hno Hle Hgt. rewrite app_assoc in Hno, Hgt.
  rewrite run_app, run_open, run_app, run_receiving_keep;
    [| eapply not_includes_prefix; eassumption | assumption].
  rewrite run_app. cbn [_onData].
  rewrite consume_overflow by assumption.
  now destruct (_onData parse fresh tail).
Qed.

(** A complete message that fits under the ceiling is framed whatever its
    chunking. *)
Lemma feed_complete_message {R E} (parse : Framer -> jsstring -> E + R)
    m chunks :
  complete_message m = true ->
  (strlen m <= CEILING + 1)%Z ->
  List.concat chunks = m ->
  feed parse fresh chunks = (fresh, _handleCompleteMessage parse fresh m).
Proof.
  intros Hm Hlen Hcat.
  now rewrite feed_concat, Hcat, run_complete_message.
Qed.

(** ** Claims on the framer *)

(** C4 (as amended). For every complete wire-format message text of at most
    100,001 characters (UTF-16 code units) and every way of splitting it
    into chunks, a fresh framer fed the chunks in order emits exactly one
    complete message, the unsplit text, and is back in its initial state. *)
Theorem chunking_is_invisible {R E} (parse : Framer -> jsstring -> E + R)
    (m : jsstring) (chunks : list jsstring) :
  complete_message m = true ->
  (strlen m <= CEILING + 1)%Z ->
  List.concat chunks = m ->
  feed parse fresh chunks = (fresh, _handleCompleteMessage parse fresh m)
  /\ frames fresh chunks = [m].
Proof.
  intros Hm Hlen Hcat. unfold frames.
  rewrite !(feed_complete_message _ m chunks) by assumption.
  split; reflexivity.
Qed.

Lemma chunking_is_invisible_witness :
  feed echo fresh [lit "<SE"; lit "ND>HbA1c|5.4</SEN"; []; lit "D>"]
  = (fresh, _handleCompleteMessage echo fresh (lit "<SEND>HbA1c|5.4</SEND>"))
  /\ frames fresh [lit "<SE"; lit "ND>HbA1c|5.4</SEN"; []; lit "D>"]
     = [lit "<SEND>HbA1c|5.4</SEND>"].
Proof.
  apply (chunking_is_invisible echo (lit "<SEND>HbA1c|5.4</SEND>"));
    [reflexivity | now vm_compute | reflexivity].
Defined.

(** C4 (as stated) fails: a complete message of 100,013 characters, fed as a
    single chunk, is cut off by the overflow protection and never emitted. *)
Lemma oversized_message_is_lost :
  complete_message oversized_message = true
  /\ frames fresh [oversized_message] = []
  /\ frames fresh [oversized_message] <> [oversized_message].
Proof.
  assert (Hrun : frames fresh [oversized_message] = []).
  { unfold frames. rewrite feed_concat. cbn [List.concat].
    rewrite app_nil_r.
    unfold oversized_message.
    change 100000%N with (99994 + 1 + 5)%N.
    rewrite !replicate_add, <- !app_assoc.
    change (replicate 1 (chr "a")) with [chr "a"].
    rewrite run_overflow by (vm_compute; congruence).
    vm_compute; reflexivity. }
  split; [vm_compute; reflexivity | split; [exact Hrun|]].
  rewrite Hrun. discriminate.
Qed.

(** C5 (as amended). In either state, when appending one character makes
    the buffer exceed 100,000 characters and does not complete the delimiter
    that the state is waiting for, the framer resets to [IDLE] with an empty
    buffer and emits nothing; it then behaves as a fresh framer, so a later
    complete message is framed whatever its chunking. *)
Theorem overflow_resets {R E} (parse : Framer -> jsstring -> E + R)
    (this : Framer) (c : char) :
  (strlen (messageBuffer this ++ [c]) > CEILING)%Z ->
  includes (messageBuffer this ++ [c]) (awaited (state this)) = false ->
  _consumeChar parse this c = (fresh, [])
  /\ forall m chunks,
       complete_message m = true -> (strlen m <= CEILING + 1)%Z ->
       List.concat chunks = m ->
       feed parse (fst (_consumeChar parse this c)) chunks
       = (fresh, _handleCompleteMessage parse fresh m).
Proof.
  intros Hlen Hno. rewrite consume_overflow by assumption.
  split; [reflexivity|]. intros m chunks Hm Hm' Hcat.
  now apply feed_complete_message.
Qed.

Lemma overflow_resets_witness :
  _consumeChar echo (mkFramer RECEIVING (SEND_OPEN ++ replicate 99994 (chr "a"))) (chr "a")
  = (fresh, [])
  /\ forall m chunks,
       complete_message m = true -> (strlen m <= CEILING + 1)%Z ->
       List.concat chunks = m ->
       feed echo
         (fst (_consumeChar echo
                 (mkFramer RECEIVING (SEND_OPEN ++ replicate 99994 (chr "a"))) (chr "a")))
         chunks
       = (fresh, _handleCompleteMessage echo fresh m).
Proof.
  apply (overflow_resets echo
           (mkFramer RECEIVING (SEND_OPEN ++ replicate 99994 (chr "a"))) (chr "a"));
    vm_compute; reflexivity.
Defined.

(** C5 (as stated) fails when the character that takes the buffer past the
    ceiling completes a delimiter: in [RECEIVING] the message of 100,001
    characters is emitted, and in [IDLE] the framer moves to [RECEIVING]. Both
    states are reached from a fresh framer. *)
Lemma delimiter_beats_overflow :
  (_onData echo fresh brimful_buffer = (mkFramer RECEIVING brimful_buffer, [])
   /\ (strlen (brimful_buffer ++ [chr ">"]) > CEILING)%Z
   /\ _consumeChar echo (mkFramer RECEIVING brimful_buffer) (chr ">")
      = (fresh, [emit_results (brimful_buffer ++ [chr ">"])]))
  /\ (_onData echo fresh brimful_noise = (mkFramer IDLE brimful_noise, [])
      /\ (strlen (brimful_noise ++ [chr ">"]) > CEILING)%Z
      /\ _consumeChar echo (mkFramer IDLE brimful_noise) (chr ">")
         = (mkFramer RECEIVING SEND_OPEN, [])).
Proof.
  split; (split; [| split; [vm_compute; reflexivity|]]).
  - unfold brimful_buffer.
    rewrite run_app, run_open, run_receiving_keep by (vm_compute; congruence).
    reflexivity.
  - rewrite consume_end by (vm_compute; reflexivity). reflexivity.
  - unfold fresh. rewrite run_idle_keep by (vm_compute; congruence).
    reflexivity.
  - apply consume_start. vm_compute; reflexivity.
Qed.

(** No start delimiter begins inside [lead]: the first one of
    [lead ++ SEND_OPEN ++ rest] is the one written out. *)
Lemma first_open_position lead rest a m b :
  includes (lead ++ removelast SEND_OPEN) SEND_OPEN = false ->
  startsWith m SEND_OPEN = true ->
  lead ++ SEND_OPEN ++ rest = a ++ m ++ b ->
  exists a', a = lead ++ a'.
Proof.
  intros Hfirst Hm Heq. apply startsWith_iff in Hm as [m' ->].
  rewrite <- (app_assoc SEND_OPEN) in Heq.
  apply app_eq_app in Heq as [l [[Hlead Hl] | [Ha _]]]; [|eauto].
  destruct l as [|x l]; [exists []; now rewrite Hlead, !app_nil_r|]. exfalso.
  assert (Hl' : SEND_OPEN ++ (m' ++ b)
                = ((x :: l) ++ removelast SEND_OPEN) ++ (chr ">" :: rest))
    by (rewrite Hl, <- app_assoc; reflexivity).
  clear Hl.
  assert (Hin : exists t, (x :: l) ++ removelast SEND_OPEN = SEND_OPEN ++ t).
  { apply app_eq_app in Hl' as [t [[Ht _] | [Ht _]]]; [|eauto].
    pose proof (f_equal (@length _) Ht) as Hn. rewrite !length_app in Hn.
    change (length SEND_OPEN) with 6 in Hn.
    change (length (removelast SEND_OPEN)) with 5 in Hn.
    destruct t; [|simpl in Hn; lia].
    exists []. rewrite app_nil_r in Ht |- *. now symmetry. }
  destruct Hin as [t Ht].
  rewrite Hlead, <- app_assoc, Ht, includes_slice in Hfirst. discriminate.
Qed.

(** The characters before the first start delimiter, when they stay below
    the ceiling, are read without event and dropped at the delimiter. *)
Lemma run_after_lead {R E} (parse : Framer -> jsstring -> E + R)
    (lead rest : jsstring) :
  includes (lead ++ removelast SEND_OPEN) SEND_OPEN = false ->
  (strlen (lead ++ removelast SEND_OPEN) <= CEILING)%Z ->
  _onData parse fresh (lead ++ SEND_OPEN ++ rest)
  = _onData parse (mkFramer RECEIVING SEND_OPEN) rest.
Proof.
  intros Hfirst Hlen.
  change SEND_OPEN with (removelast SEND_OPEN ++ [chr ">"]) at 1.
  rewrite <- app_assoc, app_assoc, run_app. unfold fresh at 1.
  rewrite run_idle_keep by assumption. rewrite run_app.
  cbn [_onData app]. rewrite consume_start.
  - now destruct (_onData parse (mkFramer RECEIVING SEND_OPEN) rest).
  - rewrite <- app_assoc.
    change (removelast SEND_OPEN ++ [chr ">"]) with (SEND_OPEN ++ []).
    apply includes_slice.
Qed.

(** C7. When the framer moves from [IDLE] to [RECEIVING] its buffer is
    exactly the start delimiter and nothing is emitted; hence, for every
    input with characters [lead] before the first start delimiter, every
    complete message emitted starts with the start delimiter and is a slice
    of the input that lies after [lead]. When [lead] stays below the
    ceiling, the framer does make that move at the first start delimiter:
    after [lead] and the delimiter it is receiving with the delimiter as
    its buffer and has emitted nothing, the run is the run of the input
    without [lead], and a complete message after [lead], in any chunking,
    is the one message emitted, without a character of [lead]. *)
Theorem leading_bytes_excluded {R E} (parse : Framer -> jsstring -> E + R)
    (lead rest : jsstring) :
  includes (lead ++ removelast SEND_OPEN) SEND_OPEN = false ->
  (forall this c,
     state this = IDLE ->
     state (fst (_consumeChar parse this c)) = RECEIVING ->
     _consumeChar parse this c = (mkFramer RECEIVING SEND_OPEN, []))
  /\ (forall chunks,
        List.concat chunks = lead ++ SEND_OPEN ++ rest ->
        Forall (fun m => startsWith m SEND_OPEN = true
                         /\ exists a b, SEND_OPEN ++ rest = a ++ m ++ b)
          (frames fresh chunks))
  /\ ((strlen (lead ++ removelast SEND_OPEN) <= CEILING)%Z ->
      _onData parse fresh (lead ++ SEND_OPEN)
      = (mkFramer RECEIVING SEND_OPEN, [])
      /\ _onData parse fresh (lead ++ SEND_OPEN ++ rest)
         = _onData parse fresh (SEND_OPEN ++ rest)
      /\ (forall chunks,
            complete_message (SEND_OPEN ++ rest) = true ->
            (strlen (SEND_OPEN ++ rest) <= CEILING + 1)%Z ->
            List.concat chunks = lead ++ SEND_OPEN ++ rest ->
            feed parse fresh chunks
            = (fresh, _handleCompleteMessage parse fresh (SEND_OPEN ++ rest))
            /\ frames fresh chunks = [SEND_OPEN ++ rest])).
Proof.
  intros Hfirst. split; [|split].
  - intros [s buf] c Hs. simpl in Hs. subst s.
    unfold _consumeChar; cbn [state messageBuffer FramerState_eqb andb].
    destruct (includes (buf ++ [c]) SEND_OPEN); [reflexivity|].
    now destruct (strlen (buf ++ [c]) >? CEILING)%Z.
  - intros chunks Hcat.
    destruct (frames_inv chunks) as [_ Hall].
    eapply Forall_impl; [|exact Hall].
    intros m [Hw [a [b Hab]]]. unfold well_framed in Hw.
    apply andb_true_iff in Hw as [Hw _]. apply andb_true_iff in Hw as [Hw _].
    split; [exact Hw|]. rewrite Hcat in Hab.
    destruct (first_open_position _ _ _ _ _ Hfirst Hw Hab) as [a' ->].
    rewrite <- app_assoc in Hab. apply app_inv_head in Hab. eauto.
  - intros Hlen.
    assert (Hsame : forall (R' E' : Type)
                      (parse' : Framer -> jsstring -> E' + R'),
              _onData parse' fresh (lead ++ SEND_OPEN ++ rest)
              = _onData parse' fresh (SEND_OPEN ++ rest)).
    { intros R' E' parse'. rewrite run_after_lead by assumption.
      rewrite (run_app _ _ parse' fresh SEND_OPEN), run_open.
      now destruct (_onData parse' (mkFramer RECEIVING SEND_OPEN) rest). }
    split; [|split].
    + replace (lead ++ SEND_OPEN) with (lead ++ SEND_OPEN ++ [])
        by now rewrite app_nil_r.
      now rewrite run_after_lead.
    + apply Hsame.
    + intros chunks Hm Hfit Hcat. split.
      * now rewrite feed_concat, Hcat, Hsame, run_complete_message.
      * unfold frames.
        now rewrite feed_concat, Hcat, Hsame, run_complete_message.
Qed.

Lemma leading_bytes_excluded_witness :
  (forall this c,
     state this = IDLE ->
     state (fst (_consumeChar echo this c)) = RECEIVING ->
     _consumeChar echo this c = (mkFramer RECEIVING SEND_OPEN, []))
  /\ (forall chunks,
        List.concat chunks = lit "noise<SEN" ++ SEND_OPEN ++ lit "x</SEND>" ->
        Forall (fun m => startsWith m SEND_OPEN = true
                         /\ exists a b,
                              SEND_OPEN ++ lit "x</SEND>" = a ++ m ++ b)
          (frames fresh chunks))
  /\ _onData echo fresh (lit "noise<SEN" ++ SEND_OPEN)
     = (mkFramer RECEIVING SEND_OPEN, [])
  /\ _onData echo fresh (lit "noise<SEN" ++ SEND_OPEN ++ lit "x</SEND>")
     = _onData echo fresh (SEND_OPEN ++ lit "x</SEND>")
  /\ feed echo fresh [lit "noise<S"; lit "EN<SEN"; lit "D>x</SE"; lit "ND>"]
     = (fresh, [emit_results (lit "<SEND>x</SEND>")])
  /\ frames fresh [lit "noise<S"; lit "EN<SEN"; lit "D>x</SE"; lit "ND>"]
     = [lit "<SEND>x</SEND>"].
Proof.
  destruct (leading_bytes_excluded echo (lit "noise<SEN") (lit "x</SEND>"))
    as [Hmove [Hslice Hbelow]]; [reflexivity|].
  destruct Hbelow as [Hopen [Hsame Hone]]; [now vm_compute|].
  destruct (Hone [lit "noise<S"; lit "EN<SEN"; lit "D>x</SE"; lit "ND>"])
    as [Hfeed Hframes]; [reflexivity | now vm_compute | reflexivity|].
  repeat split; assumption.
Defined.

(** C8. When a character completes a message, the decoder is run on the
    instance already reset to [IDLE] with an empty buffer; a decoder that
    throws yields exactly one [error] event and no [results] event, the
    message is gone from the buffer, what follows is framed as by a fresh
    framer, and the state reached on any input is the one reached with any
    other decoder. *)
Theorem decode_failure_is_isolated {R E}
    (parse : Framer -> jsstring -> E + R) (this : Framer) (c : char) :
  state this = RECEIVING ->
  includes (messageBuffer this ++ [c]) SEND_CLOSE = true ->
  _consumeChar parse this c
  = (fresh, _handleCompleteMessage parse fresh (messageBuffer this ++ [c]))
  /\ (forall err,
        parse fresh (messageBuffer this ++ [c]) = inl err ->
        _consumeChar parse this c = (fresh, [emit_error err]))
  /\ (forall later,
        feed parse (fst (_consumeChar parse this c)) later
        = feed parse fresh later)
  /\ (forall (parse' : Framer -> jsstring -> E + R) start chunks,
        fst (feed parse start chunks) = fst (feed parse' start chunks)
        /\ snd (feed parse start chunks)
           = flat_map (_handleCompleteMessage parse fresh)
               (frames start chunks)).
Proof.
  destruct this as [s buf]; cbn [state messageBuffer]; intros -> Hclose.
  rewrite consume_end by assumption.
  split; [reflexivity | split; [|split]].
  - intros err Herr. unfold _handleCompleteMessage. now rewrite Herr.
  - reflexivity.
  - intros parse' start chunks.
    now rewrite (feed_frames parse), (feed_frames parse').
Qed.

Lemma decode_failure_is_isolated_witness :
  let throwing : Framer -> jsstring -> jsstring + jsstring :=
    fun _ message => inl message in
  let this := mkFramer RECEIVING (lit "<SEND>garbage</SEND") in
  _consumeChar throwing this (chr ">")
  = (fresh, _handleCompleteMessage throwing fresh
              (messageBuffer this ++ [chr ">"]))
  /\ (forall err,
        throwing fresh (messageBuffer this ++ [chr ">"]) = inl err ->
        _consumeChar throwing this (chr ">") = (fresh, [emit_error err]))
  /\ (forall later,
        feed throwing (fst (_consumeChar throwing this (chr ">"))) later
        = feed throwing fresh later)
  /\ (forall (parse' : Framer -> jsstring -> jsstring + jsstring)
             start chunks,
        fst (feed throwing start chunks) = fst (feed parse' start chunks)
        /\ snd (feed throwing start chunks)
           = flat_map (_handleCompleteMessage throwing fresh)
               (frames start chunks)).
Proof.
  intros throwing this.
  apply (decode_failure_is_isolated throwing this (chr ">")); reflexivity.
Defined.

(** C10. After every character consumed from construction on, whatever the
    chunks: in [RECEIVING] the buffer starts with the start delimiter and
    does not hold the end delimiter, in [IDLE] the buffer does not hold the
    start delimiter; and every complete message emitted starts with the
    start delimiter, ends with the end delimiter and holds the end
    delimiter exactly once. *)
Theorem framer_invariant {R E} (parse : Framer -> jsstring -> E + R)
    (chunks : list jsstring) :
  framer_inv (fst (feed parse fresh chunks)) = true
  /\ Forall (fun m => well_framed m = true) (frames fresh chunks)
  /\ snd (feed parse fresh chunks)
     = flat_map (_handleCompleteMessage parse fresh) (frames fresh chunks).
Proof.
  rewrite feed_frames. cbn [fst snd].
  destruct (frames_inv chunks) as [Hinv Hall].
  split; [exact Hinv | split; [|reflexivity]].
  eapply Forall_impl; [|exact Hall]. now intros m [Hw _].
Qed.

(** ** Regular expressions: what a match implies *)

Section RegexFacts.

Lemma star_greedy_sound {A} cls s (k : jsstring -> option A) a :
  star_greedy cls s k = Some a ->
  exists w rest,
    s = w ++ rest /\ Forall (fun c => cls c = true) w /\ k rest = Some a.
Proof.
  induction s as [|c s IH]; simpl; intros H.
  - exists [], []. auto.
  - destruct (cls c) eqn:Hc.
    + destruct (star_greedy cls s k) as [a'|] eqn:Hs.
      * injection H as ->. destruct (IH eq_refl) as [w [rest [-> [Hw Hk]]]].
        exists (c :: w), rest. auto.
      * exists [], (c :: s). auto.
    + exists [], (c :: s). auto.
Qed.

Lemma star_lazy_sound {A} cls s (k : jsstring -> option A) a :
  star_lazy cls s k = Some a ->
  exists w rest,
    s = w ++ rest /\ Forall (fun c => cls c = true) w /\ k rest = Some a.
Proof.
  induction s as [|c s IH]; simpl; intros H.
  - destruct (k []) eqn:Hk; [|discriminate]. injection H as ->.
    exists [], []. auto.
  - destruct (k (c :: s)) eqn:Hk.
    + injection H as ->. exists [], (c :: s). auto.
    + destruct (cls c) eqn:Hc; [|discriminate].
      destruct (IH H) as [w [rest [-> [Hw Hk']]]].
      exists (c :: w), rest. auto.
Qed.

Lemma skipn_prefix (l b : jsstring) : skipn (length l) (l ++ b) = b.
Proof. induction l; simpl; auto. Qed.

Lemma rmatch_sound r :
  forall A s cap (k : jsstring -> option jsstring -> option A) a,
    rmatch r s cap k = Some a ->
    exists w rest cap',
      s = w ++ rest /\ lang r w /\ k rest cap' = Some a
      /\ (has_group r = true -> cap' <> None)
      /\ (cap <> None -> cap' <> None).
Proof.
  induction r as [l | g cls | r IH | r1 IH1 r2 IH2]; intros A s cap k a H;
    cbn [rmatch] in H.
  - destruct (startsWith s l) eqn:Hl; [|discriminate].
    apply startsWith_iff in Hl as [b ->]. rewrite skipn_prefix in H.
    exists l, b, cap. cbn. repeat split; auto. discriminate.
  - assert (Hs : exists w rest,
               s = w ++ rest /\ Forall (fun c => cls c = true) w
               /\ k rest cap = Some a).
    { destruct g; [eapply star_greedy_sound | eapply star_lazy_sound];
        exact H. }
    destruct Hs as [w [rest [-> [Hw Hk]]]].
    exists w, rest, cap. cbn. repeat split; auto. discriminate.
  - apply IH in H as [w [rest [cap' [-> [Hw [Hk _]]]]]].
    eexists w, rest, _. cbn. repeat split; eauto; discriminate.
  - apply IH1 in H as [w1 [rest1 [cap1 [-> [Hw1 [Hk1 [Hg1 Hc1]]]]]]].
    apply IH2 in Hk1 as [w2 [rest2 [cap2 [-> [Hw2 [Hk2 [Hg2 Hc2]]]]]]].
    exists (w1 ++ w2), rest2, cap2. cbn. rewrite <- app_assoc.
    repeat split; eauto.
    intros Hg. apply orb_true_iff in Hg as [Hg | Hg]; auto.
Qed.

Lemma regex_match_sound r s m1 :
  regex_match r s = Some m1 ->
  (exists pre w post, s = pre ++ w ++ post /\ lang r w)
  /\ (has_group r = true -> m1 <> None).
Proof.
  induction s as [|c s IH]; cbn [regex_match];
    destruct (rmatch r _ None (fun _ cap => Some cap)) as [m|] eqn:Hm;
    intros H; try discriminate.
  - injection H as ->.
    apply rmatch_sound in Hm as [w [rest [cap' [-> [Hw [Hk [Hg _]]]]]]].
    injection Hk as ->. split; [|exact Hg]. exists [], w, rest. auto.
  - injection H as ->.
    apply rmatch_sound in Hm as [w [rest [cap' [Hs [Hw [Hk [Hg _]]]]]]].
    injection Hk as ->. split; [|exact Hg]. exists [], w, rest. auto.
  - destruct (IH H) as [[pre [w [post [-> Hw]]]] Hg]. split; [|exact Hg].
    exists (c :: pre), w, post. auto.
Qed.

Lemma tagged_match r open close s m1 :
  tagged r open close ->
  regex_match r s = Some m1 ->
  includes s open = true /\ includes s close = true.
Proof.
  intros Ht Hm. apply regex_match_sound in Hm as [[pre [w [post [-> Hw]]]] _].
  destruct (Ht w Hw) as [inner ->]. split.
  - rewrite <- !app_assoc. apply includes_slice.
  - rewrite <- !app_assoc, !app_assoc, <- app_assoc. apply includes_slice.
Qed.

Lemma re_M_tagged : tagged re_M (lit "<M>") (lit "</M>").
Proof.
  intros w [w1 [w2 [-> [-> [w3 [w4 [-> [_ ->]]]]]]]]. eauto.
Qed.

Lemma re_I_tagged : tagged re_I (lit "<I>") (lit "</I>").
Proof.
  intros w [w1 [w2 [-> [-> [w3 [w4 [-> [_ [w5 [w6 [-> [_ [w7 [w8
    [-> [_ ->]]]]]]]]]]]]]]]].
  exists (w3 ++ w5 ++ w7). now rewrite <- !app_assoc.
Qed.

Lemma re_R_tagged : tagged re_R (lit "<R>") (lit "</R>").
Proof.
  intros w [w1 [w2 [-> [-> [w3 [w4 [-> [_ [w5 [w6 [-> [_ [w7 [w8
    [-> [_ ->]]]]]]]]]]]]]]]].
  exists (w3 ++ w5 ++ w7). now rewrite <- !app_assoc.
Qed.

End RegexFacts.

(** ** Line-ending normalisation creates no tag *)

Section Normalisation.

Lemma startsWith_cr_to_lf tag : forall s,
  no_LF tag = true ->
  startsWith (cr_to_lf s) tag = true -> startsWith s tag = true.
Proof.
  induction tag as [|x tag IH]; intros s Hx H; [reflexivity|].
  destruct s as [|c s]; [discriminate|].
  cbn in Hx, H |- *. apply andb_true_iff in Hx as [Hx Htag].
  apply andb_true_iff in H as [Hc Hs].
  apply negb_true_iff, N.eqb_neq in Hx. apply N.eqb_eq in Hc.
  destruct (N.eqb_spec c CR) as [-> | _]; [congruence|].
  subst x. rewrite N.eqb_refl. now apply IH.
Qed.

Lemma includes_cr_to_lf tag s :
  no_LF tag = true ->
  includes (cr_to_lf s) tag = true -> includes s tag = true.
Proof.
  intros Hx. induction s as [|c s IH]; cbn [cr_to_lf List.map includes].
  - rewrite !orb_false_r. now apply (startsWith_cr_to_lf tag []).
  - intros H. apply orb_true_iff in H as [H | H]; apply orb_true_iff.
    + left. now apply (startsWith_cr_to_lf tag (c :: s)).
    + right. now apply IH.
Qed.

Lemma crlf_to_lf_cons c s :
  crlf_to_lf (c :: s) =
  match s with
  | d :: s' =>
      if ((c =? CR) && (d =? LF))%N then LF :: crlf_to_lf s'
      else c :: crlf_to_lf s
  | [] => [c]
  end.
Proof. destruct s; reflexivity. Qed.

Lemma startsWith_crlf_to_lf tag : forall s,
  no_LF tag = true ->
  startsWith (crlf_to_lf s) tag = true -> startsWith s tag = true.
Proof.
  induction tag as [|x tag IH]; intros s Hx H; [reflexivity|].
  destruct s as [|c s]; [discriminate|].
  cbn [no_LF forallb] in Hx. apply andb_true_iff in Hx as [Hx Htag].
  apply negb_true_iff, N.eqb_neq in Hx.
  rewrite crlf_to_lf_cons in H. destruct s as [|d s].
  - destruct tag; [exact H | cbn in H |- *; now rewrite andb_false_r in H].
  - destruct ((c =? CR) && (d =? LF))%N; cbn [startsWith] in H |- *;
      apply andb_true_iff in H as [Hc Hs]; apply N.eqb_eq in Hc.
    + congruence.
    + subst x. rewrite N.eqb_refl. now apply IH.
Qed.

Lemma includes_crlf_to_lf tag :
  no_LF tag = true ->
  forall s,
    (includes (crlf_to_lf s) tag = true -> includes s tag = true)
    /\ (forall c,
          includes (crlf_to_lf (c :: s)) tag = true ->
          includes (c :: s) tag = true).
Proof.
  intros Hx. induction s as [|d s [IH0 IH1]].
  - split; [|intros c]; cbn [crlf_to_lf includes]; rewrite !orb_false_r;
      intros H; [exact H|].
    apply orb_true_iff in H as [H | H]; apply orb_true_iff; auto.
  - split; [apply IH1|]. intros c H.
    pose proof (startsWith_crlf_to_lf tag (c :: d :: s) Hx) as Hstart.
    rewrite crlf_to_lf_cons in H, Hstart.
    cbn [includes]. apply orb_true_iff.
    destruct ((c =? CR) && (d =? LF))%N; cbn [includes] in H;
      apply orb_true_iff in H as [H | H]; auto.
    + right. apply orb_true_iff. right. now apply IH0.
    + right. now apply (IH1 d).
Qed.

Lemma includes_normalize tag raw_ :
  no_LF tag = true ->
  includes raw_ tag = false -> includes (normalize raw_) tag = false.
Proof.
  intros Hx Hno. destruct (includes (normalize raw_) tag) eqn:H; [|reflexivity].
  apply includes_cr_to_lf, includes_crlf_to_lf in H; try assumption.
  congruence.
Qed.

End Normalisation.

(** ** The decoder never throws *)

Section Totality.

Lemma capture_defined r s m1 :
  has_group r = true -> regex_match r s = Some m1 ->
  exists body, m1 = Some body.
Proof.
  intros Hg Hm. apply regex_match_sound in Hm as [_ Hcap].
  destruct m1 as [body|]; [eauto | now destruct (Hcap Hg)].
Qed.

Lemma parseMachineInfo_total clean :
  exists m, parseMachineInfo clean = inr m.
Proof.
  unfold parseMachineInfo.
  destruct (regex_match re_M clean) as [m1|] eqn:Hm; [|eexists; reflexivity].
  destruct (capture_defined re_M clean m1 eq_refl Hm) as [body ->].
  eexists; reflexivity.
Qed.

Lemma parseSampleInfo_total clean :
  exists i, parseSampleInfo clean = inr i.
Proof.
  unfold parseSampleInfo.
  destruct (regex_match re_I clean) as [i1|] eqn:Hi; [|eexists; reflexivity].
  destruct (capture_defined re_I clean i1 eq_refl Hi) as [body ->].
  eexists; reflexivity.
Qed.

Lemma parseResults_total clean :
  exists r, parseResults clean = inr r.
Proof.
  unfold parseResults.
  destruct (regex_match re_R clean) as [r1|] eqn:Hr; [|eexists; reflexivity].
  destruct (capture_defined re_R clean r1 eq_refl Hr) as [body ->].
  eexists; reflexivity.
Qed.

(** The record that [parseProtocol] returns, section by section. *)
Lemma parseProtocol_total now raw_ :
  exists m i r,
    parseMachineInfo (normalize raw_) = inr m
    /\ parseSampleInfo (normalize raw_) = inr i
    /\ parseResults (normalize raw_) = inr r
    /\ parseProtocol now raw_
       = inr {| machineInfo := m; sampleInfo := i;
                results := interpretHbA1c r;
                raw := raw_; receivedAt := now |}.
Proof.
  destruct (parseMachineInfo_total (normalize raw_)) as [m Hm].
  destruct (parseSampleInfo_total (normalize raw_)) as [i Hi].
  destruct (parseResults_total (normalize raw_)) as [r Hr].
  exists m, i, r. unfold parseProtocol. cbn zeta.
  rewrite Hm, Hi, Hr. auto.
Qed.

Lemma absent_tag_no_match r open close raw_ :
  tagged r open close ->
  no_LF open = true -> no_LF close = true ->
  includes raw_ open = false \/ includes raw_ close = false ->
  regex_match r (normalize raw_) = None.
Proof.
  intros Ht Ho Hc Habs.
  destruct (regex_match r (normalize raw_)) as [m1|] eqn:Hm; [|reflexivity].
  destruct (tagged_match r open close _ m1 Ht Hm) as [H1 H2].
  destruct Habs as [H | H].
  - apply (includes_normalize open raw_ Ho) in H. congruence.
  - apply (includes_normalize close raw_ Hc) in H. congruence.
Qed.

End Totality.

(** ** Claims on the decoder *)

(** C9. [parseProtocol] returns a record for every message text, and the
    complete message is answered by a [results] event, never an [error]
    event. A section whose opening or closing tag does not occur in the
    text leaves its sub-record at the initial empty object: [machineInfo]
    for [<M>], [sampleInfo] for [<I>], [results] for [<R>]. The only
    exception in the code, a method call on an undefined capture, cannot be
    raised. *)
Theorem absent_sections_default (now raw_ : jsstring) :
  exists r,
    parseProtocol now raw_ = inr r
    /\ (forall this,
          _handleCompleteMessage (method_parseProtocol now) this raw_
          = [emit_results r])
    /\ raw r = raw_
    /\ (includes raw_ (lit "<M>") = false
        \/ includes raw_ (lit "</M>") = false -> machineInfo r = None)
    /\ (includes raw_ (lit "<I>") = false
        \/ includes raw_ (lit "</I>") = false -> sampleInfo r = None)
    /\ (includes raw_ (lit "<R>") = false
        \/ includes raw_ (lit "</R>") = false -> results r = empty_object).
Proof.
  destruct (parseProtocol_total now raw_) as [m [i [r [Hm [Hi [Hr Hp]]]]]].
  eexists. split; [exact Hp|].
  split; [intros this; unfold _handleCompleteMessage, method_parseProtocol;
          now rewrite Hp|].
  split; [reflexivity|]. cbn [machineInfo sampleInfo results].
  repeat split; intros Habs.
  - unfold parseMachineInfo in Hm.
    rewrite (absent_tag_no_match _ _ _ _ re_M_tagged eq_refl eq_refl Habs) in Hm.
    now injection Hm.
  - unfold parseSampleInfo in Hi.
    rewrite (absent_tag_no_match _ _ _ _ re_I_tagged eq_refl eq_refl Habs) in Hi.
    now injection Hi.
  - unfold parseResults in Hr.
    rewrite (absent_tag_no_match _ _ _ _ re_R_tagged eq_refl eq_refl Habs) in Hr.
    injection Hr as <-. reflexivity.
Qed.

(** ** Number comparisons *)

Section NumberFacts.

Lemma SFcompare_refl x : x <> S754_nan -> SFcompare x x = Some Eq.
Proof.
  destruct x as [s | s | | s m e]; intros Hx; try congruence;
    try (now destruct s).
  cbn. destruct s; now rewrite Z.compare_refl, Pos.compare_cont_refl.
Qed.

Lemma SFcompare_antisym x y :
  SFcompare y x = option_map CompOpp (SFcompare x y).
Proof.
  destruct x as [sx | sx | | sx mx ex], y as [sy | sy | | sy my ey];
    try reflexivity; try (now destruct sx); try (now destruct sy);
    try (now destruct sx, sy).
  pose proof (Pos.compare_cont_antisym mx my Eq) as Hm. cbn in Hm.
  cbn -[Pos.compare_cont]. destruct sx, sy; try reflexivity;
    rewrite (Z.compare_antisym ex ey);
    destruct (ex ?= ey)%Z; cbn -[Pos.compare_cont]; try reflexivity;
    rewrite <- Hm; now destruct (Pos.compare_cont Eq mx my).
Qed.

Lemma spec_float_eq_nan (x : spec_float) : x = S754_nan \/ x <> S754_nan.
Proof. destruct x; (now left) || (right; discriminate). Qed.

Lemma is_nan_true v : is_nan v = true -> v = nan.
Proof.
  unfold is_nan. rewrite eqb_spec. unfold SFeqb. intros H.
  apply Prim2SF_inj. change (Prim2SF nan) with S754_nan.
  destruct (spec_float_eq_nan (Prim2SF v)) as [Hn | Hn]; [exact Hn|].
  now rewrite (SFcompare_refl _ Hn) in H.
Qed.

Lemma is_nan_false v : is_nan v = false -> Prim2SF v <> S754_nan.
Proof.
  unfold is_nan. rewrite eqb_spec. unfold SFeqb. intros H Hn.
  now rewrite Hn in H.
Qed.

Lemma SFcompare_numbers x y :
  x <> S754_nan -> y <> S754_nan -> SFcompare x y <> None.
Proof.
  destruct x as [sx | sx | | sx mx ex], y as [sy | sy | | sy my ey];
    intros Hx Hy; try congruence; cbn; discriminate.
Qed.

(** For numbers, [x < y] is the negation of [y <= x]. *)
Lemma ltb_not_leb x y :
  is_nan x = false -> is_nan y = false ->
  (x <? y)%float = negb (y <=? x)%float.
Proof.
  intros Hx Hy. apply is_nan_false in Hx, Hy.
  rewrite ltb_spec, leb_spec. unfold SFltb, SFleb.
  rewrite (SFcompare_antisym (Prim2SF x) (Prim2SF y)).
  pose proof (SFcompare_numbers _ _ Hx Hy) as Hc.
  destruct (SFcompare (Prim2SF x) (Prim2SF y)) as [[| |]|];
    [reflexivity | reflexivity | reflexivity | congruence].
Qed.

(** Two positive numbers of one exponent, the lower below the upper: at or
    above the upper is not below the lower. *)
Lemma SFleb_SFltb_trans (lower upper : positive) (e0 : Z) (x : spec_float) :
  (lower < upper)%positive ->
  SFleb (S754_finite false upper e0) x = true ->
  SFltb x (S754_finite false lower e0) = false.
Proof.
  intros Hlt. unfold SFleb, SFltb.
  destruct x as [s | s | | s m e];
    [now destruct s | now destruct s | discriminate |].
  destruct s; [discriminate|]. cbn [SFcompare].
  change (Pos.compare_cont Eq upper m) with (upper ?= m)%positive.
  change (Pos.compare_cont Eq m lower) with (m ?= lower)%positive.
  destruct (Z.compare_spec e0 e) as [He | He | He];
    destruct (Z.compare_spec e e0) as [He' | He' | He'];
    try lia; try discriminate; try reflexivity.
  destruct (Pos.compare_spec upper m) as [Hm | Hm | Hm];
    destruct (Pos.compare_spec m lower) as [Hm' | Hm' | Hm'];
    try lia; try discriminate; try reflexivity.
Qed.

Set Warnings "-inexact-float".

Lemma threshold_Prediabetes :
  Prim2SF 5.7 = S754_finite false 6417629469002957 (-50).
Proof. reflexivity. Qed.

Lemma threshold_Diabetes :
  Prim2SF 6.5 = S754_finite false 7318349394477056 (-50).
Proof. reflexivity. Qed.

(** A number at or above 6.5 is not below 5.7. *)
Lemma leb_65_not_ltb_57 v :
  (6.5 <=? v)%float = true -> (v <? 5.7)%float = false.
Proof.
  rewrite leb_spec, ltb_spec, threshold_Prediabetes, threshold_Diabetes.
  apply SFleb_SFltb_trans. reflexivity.
Qed.

Set Warnings "inexact-float".

End NumberFacts.

(** ** The results object *)

Section ResultsFacts.

Lemma streq_iff s t : streq s t = true <-> s = t.
Proof.
  revert t; induction s as [|a s IH]; intros [|b t]; cbn;
    try (split; (reflexivity || discriminate)).
  rewrite andb_true_iff, N.eqb_eq, IH. split.
  - now intros [-> ->].
  - intros H. injection H as -> ->. auto.
Qed.

Lemma streq_refl s : streq s s = true.
Proof. now apply streq_iff. Qed.

Lemma streq_neq s t : s <> t -> streq s t = false.
Proof.
  intros H. destruct (streq s t) eqn:E; [|reflexivity].
  now apply streq_iff in E.
Qed.

Lemma assoc_get_set_same key e l :
  assoc_get key (assoc_set key e l) = Some e.
Proof.
  induction l as [|[k e'] l IH]; cbn.
  - now rewrite streq_refl.
  - destruct (streq k key) eqn:E; cbn; now rewrite E.
Qed.

Lemma assoc_get_set_other key key' e l :
  key <> key' ->
  assoc_get key' (assoc_set key e l) = assoc_get key' l.
Proof.
  intros Hk. induction l as [|[k e'] l IH]; cbn.
  - now rewrite streq_neq.
  - destruct (streq k key) eqn:E; cbn.
    + apply streq_iff in E as ->. now rewrite streq_neq.
    + now rewrite IH.
Qed.

Lemma get_entry_set_same res key e :
  get_entry (set_entry res key e) key = Some e.
Proof.
  unfold get_entry, set_entry.
  destruct (streq key PROTO) eqn:E; cbn; [reflexivity|].
  apply assoc_get_set_same.
Qed.

Lemma get_entry_set_other res key key' e :
  key <> key' ->
  get_entry (set_entry res key e) key' = get_entry res key'.
Proof.
  intros Hk. unfold get_entry, set_entry.
  destruct (streq key PROTO) eqn:E, (streq key' PROTO) eqn:E'; cbn;
    try reflexivity.
  - apply streq_iff in E, E'. congruence.
  - now apply assoc_get_set_other.
Qed.

(** What the interpretation step leaves under each key. *)
Lemma interpretHbA1c_HbA1c res :
  get_entry (interpretHbA1c res) HbA1c =
  option_map
    (fun e => {| value := value e; unit := unit e;
                 interpretation := Some (interpret (value e)) |})
    (get_entry res HbA1c).
Proof.
  unfold interpretHbA1c, get_entry.
  change (streq HbA1c PROTO) with false. cbn iota.
  destruct (assoc_get HbA1c (own res)) as [e|] eqn:E;
    cbn [own proto option_map].
  - apply assoc_get_set_same.
  - exact E.
Qed.

Lemma interpretHbA1c_other res key :
  key <> HbA1c ->
  get_entry (interpretHbA1c res) key = get_entry res key.
Proof.
  intros Hk. unfold interpretHbA1c, get_entry.
  destruct (assoc_get HbA1c (own res)) as [e|] eqn:E;
    cbn [own proto]; [|reflexivity].
  destruct (streq key PROTO); [reflexivity|].
  apply assoc_get_set_other. congruence.
Qed.

Lemma results_of_parseProtocol now raw_ r :
  parseProtocol now raw_ = inr r ->
  exists res,
    parseResults (normalize raw_) = inr res
    /\ results r = interpretHbA1c res.
Proof.
  destruct (parseProtocol_total now raw_) as [m [i [res [_ [_ [Hr Hp]]]]]].
  rewrite Hp. intros H. injection H as <-. eauto.
Qed.

End ResultsFacts.

Set Warnings "-inexact-float".

(** C1 (the code at the failing input, and at every such input). When the
    entry [HbA1c] holds the not-a-number value, [parseProtocol] labels it
    [Diabetes]: both comparisons are false, and the last branch of the
    conditional is taken. *)
Theorem nan_is_labelled_Diabetes (now raw_ : jsstring) (r : DecodedResult)
    (e : ResultEntry) :
  parseProtocol now raw_ = inr r ->
  get_entry (results r) HbA1c = Some e ->
  is_nan (value e) = true ->
  interpretation e = Some (lit "Diabetes").
Proof.
  intros Hp He Hnan.
  destruct (results_of_parseProtocol _ _ _ Hp) as [res [_ Hres]].
  rewrite Hres, interpretHbA1c_HbA1c in He.
  destruct (get_entry res HbA1c) as [e0|]; [|discriminate].
  injection He as <-. cbn in Hnan |- *.
  now rewrite (is_nan_true _ Hnan).
Qed.

Lemma nan_is_labelled_Diabetes_witness :
  exists r e,
    parseProtocol [] nan_message = inr r
    /\ get_entry (results r) HbA1c = Some e
    /\ is_nan (value e) = true
    /\ interpretation e = Some (lit "Diabetes").
Proof.
  eexists. eexists.
  split; [vm_compute; reflexivity|].
  split; [vm_compute; reflexivity|].
  split; [vm_compute; reflexivity|].
  eapply (nan_is_labelled_Diabetes [] nan_message); vm_compute; reflexivity.
Defined.

(** C2. For every message whose decoded results hold an entry [HbA1c] with
    a numeric value [v], the interpretation is [Normal] when [v < 5.7],
    [Prediabetes] when [5.7 <= v < 6.5] and [Diabetes] when [6.5 <= v];
    one of the three ranges applies, no two of them do, and the values 5.7
    and 6.5 themselves are [Prediabetes] and [Diabetes]. *)
Theorem HbA1c_ranges (now raw_ : jsstring) (r : DecodedResult)
    (e : ResultEntry) :
  parseProtocol now raw_ = inr r ->
  get_entry (results r) HbA1c = Some e ->
  is_nan (value e) = false ->
  let v := value e in
  ((v <? 5.7)%float = true -> interpretation e = Some (lit "Normal"))
  /\ ((5.7 <=? v)%float = true -> (v <? 6.5)%float = true ->
      interpretation e = Some (lit "Prediabetes"))
  /\ ((6.5 <=? v)%float = true -> interpretation e = Some (lit "Diabetes"))
  /\ ((v <? 5.7)%float || ((5.7 <=? v)%float && (v <? 6.5)%float)
      || (6.5 <=? v)%float = true)
  /\ ((v <? 5.7)%float = true -> (5.7 <=? v)%float = false)
  /\ ((v <? 6.5)%float = true -> (6.5 <=? v)%float = false)
  /\ (v = 5.7%float -> interpretation e = Some (lit "Prediabetes"))
  /\ (v = 6.5%float -> interpretation e = Some (lit "Diabetes")).
Proof.
  intros Hp He Hnum v.
  destruct (results_of_parseProtocol _ _ _ Hp) as [res [_ Hres]].
  rewrite Hres, interpretHbA1c_HbA1c in He.
  destruct (get_entry res HbA1c) as [e0|]; [|discriminate].
  injection He as <-. cbn in Hnum, v |- *. subst v.
  pose proof (ltb_not_leb (value e0) 5.7 Hnum eq_refl) as H57.
  pose proof (ltb_not_leb (value e0) 6.5 Hnum eq_refl) as H65.
  pose proof (leb_65_not_ltb_57 (value e0)) as Htrans.
  unfold interpret. repeat split.
  - now intros ->.
  - intros Hle Hlt. now rewrite H57, Hle, Hlt.
  - intros Hle. now rewrite (Htrans Hle), H65, Hle.
  - rewrite H57, H65.
    destruct (5.7 <=? value e0)%float, (6.5 <=? value e0)%float;
      reflexivity.
  - rewrite H57. now destruct (5.7 <=? value e0)%float.
  - rewrite H65. now destruct (6.5 <=? value e0)%float.
  - now intros ->.
  - now intros ->.
Qed.

Lemma HbA1c_ranges_witness :
  exists r e,
    parseProtocol [] scenario_message = inr r
    /\ get_entry (results r) HbA1c = Some e
    /\ is_nan (value e) = false
    /\ (value e <? 5.7)%float = true
    /\ interpretation e = Some (lit "Normal").
Proof.
  eexists. eexists.
  split; [vm_compute; reflexivity|].
  split; [vm_compute; reflexivity|].
  split; [vm_compute; reflexivity|].
  split; [vm_compute; reflexivity|].
  eapply (HbA1c_ranges [] scenario_message); vm_compute; reflexivity.
Defined.

Set Warnings "inexact-float".

(** ** The sample-type table *)

Section SampleType.

Lemma SFeqb_finite x s m e :
  SFeqb x (S754_finite s m e) = true -> x = S754_finite s m e.
Proof.
  unfold SFeqb. destruct x as [sx | sx | | sx mx ex];
    [destruct s; discriminate | destruct sx; discriminate | discriminate |].
  cbn [SFcompare].
  change (Pos.compare_cont Eq mx m) with (mx ?= m)%positive.
  destruct sx, s; try discriminate;
    destruct (Z.compare_spec ex e) as [-> | He | He]; try discriminate;
    destruct (Pos.compare_spec mx m) as [-> | Hm | Hm]; try discriminate;
    reflexivity.
Qed.

(** [x == k] for a number [k] other than zero means that [x] is [k]. *)
Lemma eqb_finite x k s m e :
  Prim2SF k = S754_finite s m e -> (x =? k)%float = true -> x = k.
Proof.
  intros Hk H. rewrite eqb_spec, Hk in H. apply SFeqb_finite in H.
  apply Prim2SF_inj. congruence.
Qed.

Lemma typeMap_table code :
  ((code =? 0)%float = true -> typeMap code = Some (lit "whole_blood"))
  /\ ((code =? 1)%float = true -> typeMap code = Some (lit "quality_control"))
  /\ ((code =? 2)%float = true -> typeMap code = Some (lit "calibration"))
  /\ ((code =? 3)%float = true -> typeMap code = Some (lit "diluted"))
  /\ ((code =? 0)%float = false -> (code =? 1)%float = false ->
      (code =? 2)%float = false -> (code =? 3)%float = false ->
      typeMap code = None)
  /\ (is_nan code = true -> typeMap code = None).
Proof.
  repeat split.
  - intros H. unfold typeMap. now rewrite H.
  - intros H. now rewrite (eqb_finite code 1 _ _ _ eq_refl H).
  - intros H. now rewrite (eqb_finite code 2 _ _ _ eq_refl H).
  - intros H. now rewrite (eqb_finite code 3 _ _ _ eq_refl H).
  - intros H0 H1 H2 H3. unfold typeMap. now rewrite H0, H1, H2, H3.
  - intros H. now rewrite (is_nan_true _ H).
Qed.

Lemma parseSampleInfo_match clean body :
  regex_match re_I clean = Some (Some body) ->
  parseSampleInfo clean =
  inr (Some
         {| recordType := nth_error (split (chr "|") (trim body)) 0;
            analysisTime := nth_error (split (chr "|") (trim body)) 1;
            sampleId := nth_error (split (chr "|") (trim body)) 2;
            samplePosition := nth_error (split (chr "|") (trim body)) 3;
            sampleTypeCode :=
              Number (nth_error (split (chr "|") (trim body)) 4);
            sampleType :=
              or_default
                (typeMap (Number (nth_error (split (chr "|") (trim body)) 4)))
                (lit "unknown") |}).
Proof. unfold parseSampleInfo. now intros ->. Qed.

End SampleType.

(** The sample record by the numeric value of its fifth field: the record
    is split at [|]; the first four fields are kept as they are, and the
    fifth, read by [Number], is the sample-type code. Code 0 is
    [whole_blood], 1 is [quality_control], 2 is [calibration], 3 is
    [diluted], and every other number, not-a-number included, is [unknown].
    A field beyond the last one present is absent, and nothing is thrown. *)
Theorem sample_type_table (now raw_ body : jsstring) :
  regex_match re_I (normalize raw_) = Some (Some body) ->
  exists r si,
    parseProtocol now raw_ = inr r
    /\ sampleInfo r = Some si
    /\ let parts := split (chr "|") (trim body) in
       let code := Number (nth_error parts 4) in
       recordType si = nth_error parts 0
       /\ analysisTime si = nth_error parts 1
       /\ sampleId si = nth_error parts 2
       /\ samplePosition si = nth_error parts 3
       /\ sampleTypeCode si = code
       /\ ((code =? 0)%float = true -> sampleType si = lit "whole_blood")
       /\ ((code =? 1)%float = true -> sampleType si = lit "quality_control")
       /\ ((code =? 2)%float = true -> sampleType si = lit "calibration")
       /\ ((code =? 3)%float = true -> sampleType si = lit "diluted")
       /\ ((code =? 0)%float = false -> (code =? 1)%float = false ->
           (code =? 2)%float = false -> (code =? 3)%float = false ->
           sampleType si = lit "unknown")
       /\ (is_nan code = true -> sampleType si = lit "unknown")
       /\ (forall k, length parts <= k -> nth_error parts k = None)
       /\ (nth_error parts 4 = None -> is_nan code = true)
       /\ (nth_error parts 4 = Some (lit "0") ->
           sampleType si = lit "whole_blood")
       /\ (nth_error parts 4 = Some (lit "1") ->
           sampleType si = lit "quality_control")
       /\ (nth_error parts 4 = Some (lit "2") ->
           sampleType si = lit "calibration")
       /\ (nth_error parts 4 = Some (lit "3") ->
           sampleType si = lit "diluted").
Proof.
  intros Hmatch.
  destruct (parseProtocol_total now raw_) as [m [i [r [_ [Hi [_ Hp]]]]]].
  rewrite (parseSampleInfo_match _ _ Hmatch) in Hi.
  set (parts := split (chr "|") (trim body)) in *.
  set (code := Number (nth_error parts 4)) in *.
  match type of Hi with inr (Some ?si) = _ =>
    assert (Ei : i = Some si) by congruence
  end.
  subst i. eexists. eexists.
  split; [exact Hp|]. split; [reflexivity|].
  cbn [recordType analysisTime sampleId samplePosition sampleTypeCode
       sampleType].
  destruct (typeMap_table code) as [T0 [T1 [T2 [T3 [Tother Tnan]]]]].
  repeat split; try reflexivity.
  - intros H. now rewrite (T0 H).
  - intros H. now rewrite (T1 H).
  - intros H. now rewrite (T2 H).
  - intros H. now rewrite (T3 H).
  - intros H0 H1 H2 H3. now rewrite (Tother H0 H1 H2 H3).
  - intros H. now rewrite (Tnan H).
  - intros k Hk. now apply nth_error_None.
  - intros H. subst code. now rewrite H.
  - intros H. subst code. now rewrite H.
  - intros H. subst code. now rewrite H.
  - intros H. subst code. now rewrite H.
  - intros H. subst code. now rewrite H.
Qed.

Lemma sample_type_table_witness :
  exists r si,
    parseProtocol [] scenario_message = inr r
    /\ sampleInfo r = Some si
    /\ sampleType si = lit "whole_blood".
Proof.
  destruct (sample_type_table [] scenario_message
              (lit "0|2024-01-01T10:00|S1|A1|0"))
    as [r [si [Hp [Hsi Hfields]]]]; [vm_compute; reflexivity|].
  exists r, si. split; [exact Hp|]. split; [exact Hsi|].
  apply Hfields. vm_compute; reflexivity.
Defined.

(** White space only is trimmed to the empty string. *)
Lemma trim_blank s : forallb isWhiteSpace s = true -> trim s = [].
Proof.
  intros H. unfold trim, trimStart.
  assert (Hs : dropWhile isWhiteSpace s = []).
  { induction s as [|c s IH]; [reflexivity|]. cbn [forallb] in H.
    apply andb_true_iff in H as [Hc Hs]. cbn [dropWhile]. rewrite Hc. auto. }
  now rewrite Hs.
Qed.

(** C3. The sample-type code is not matched as text against the table: it
    is read by [Number], which reads an empty field and a field of white
    space only as 0. So for every message with an [<I>] section whose
    fifth field is empty or blank, the code is 0 and the sample type is
    [whole_blood], not [unknown]; and when the fifth field is missing, the
    code is not absent but not-a-number (the sample type is then
    [unknown]). *)
Theorem blank_code_is_whole_blood (now raw_ body : jsstring) :
  regex_match re_I (normalize raw_) = Some (Some body) ->
  exists r si,
    parseProtocol now raw_ = inr r
    /\ sampleInfo r = Some si
    /\ let parts := split (chr "|") (trim body) in
       (forall field,
          nth_error parts 4 = Some field ->
          forallb isWhiteSpace field = true ->
          sampleTypeCode si = zero
          /\ sampleType si = lit "whole_blood"
          /\ sampleType si <> lit "unknown")
       /\ (nth_error parts 4 = None ->
           is_nan (sampleTypeCode si) = true
           /\ sampleType si = lit "unknown").
Proof.
  intros Hmatch.
  destruct (parseProtocol_total now raw_) as [m [i [r [_ [Hi [_ Hp]]]]]].
  rewrite (parseSampleInfo_match _ _ Hmatch) in Hi.
  set (parts := split (chr "|") (trim body)) in *.
  match type of Hi with inr (Some ?si) = _ =>
    assert (Ei : i = Some si) by congruence
  end.
  subst i. eexists. eexists.
  split; [exact Hp|]. split; [reflexivity|].
  cbn [sampleTypeCode sampleType]. cbv zeta. split.
  - intros field Hfield Hblank. rewrite Hfield.
    assert (Hzero : Number (Some field) = zero)
      by (unfold Number; now rewrite (trim_blank _ Hblank)).
    rewrite Hzero. repeat split; vm_compute; congruence.
  - intros Hnone. rewrite Hnone. split; vm_compute; reflexivity.
Qed.

Lemma blank_code_is_whole_blood_witness :
  (exists r si,
     parseProtocol [] blank_code_message = inr r
     /\ sampleInfo r = Some si
     /\ sampleId si = Some (lit "S1")
     /\ sampleTypeCode si = zero
     /\ sampleType si = lit "whole_blood")
  /\ (exists r si,
        parseProtocol [] short_sample_message = inr r
        /\ sampleInfo r = Some si
        /\ sampleId si = Some (lit "S1")
        /\ is_nan (sampleTypeCode si) = true
        /\ sampleType si = lit "unknown").
Proof.
  split.
  - destruct (blank_code_is_whole_blood [] blank_code_message
                (lit "0|2024-01-01T10:00|S1|A1|"))
      as [r [si [Hp [Hsi [Hblank _]]]]]; [vm_compute; reflexivity|].
    destruct (Hblank []) as [Hcode [Htype _]];
      [vm_compute; reflexivity | reflexivity|].
    exists r, si. repeat split; try assumption.
    revert Hp Hsi. vm_compute. intros Hp Hsi.
    injection Hp as <-. injection Hsi as <-. reflexivity.
  - destruct (blank_code_is_whole_blood [] short_sample_message
                (lit "0|2024-01-01T10:00|S1|A1"))
      as [r [si [Hp [Hsi [_ Hshort]]]]]; [vm_compute; reflexivity|].
    destruct Hshort as [Hcode Htype]; [vm_compute; reflexivity|].
    exists r, si. repeat split; try assumption.
    revert Hp Hsi. vm_compute. intros Hp Hsi.
    injection Hp as <-. injection Hsi as <-. reflexivity.
Defined.

(** ** The lines of the results section *)

Section ResultLines.

Lemma split_no_sep sep s :
  forallb (fun c => negb (c =? sep)%N) s = true -> split sep s = [s].
Proof.
  induction s as [|c s IH]; cbn; [reflexivity|].
  intros H. apply andb_true_iff in H as [Hc Hs].
  apply negb_true_iff in Hc. now rewrite Hc, (IH Hs).
Qed.

Lemma split_at_sep sep a b :
  forallb (fun c => negb (c =? sep)%N) a = true ->
  split sep (a ++ sep :: b) = a :: split sep b.
Proof.
  induction a as [|c a IH]; cbn.
  - now rewrite N.eqb_refl.
  - intros H. apply andb_true_iff in H as [Hc Ha].
    apply negb_true_iff in Hc. now rewrite Hc, (IH Ha).
Qed.


Lemma storeLine_key_value res line :
  storeLine res (trim line) =
  match key_value line with
  | Some (key, val) =>
      set_entry res key
        {| value := parseFloat val; unit := lit "%"; interpretation := None |}
  | None => res
  end.
Proof.
  unfold storeLine, key_value.
  destruct (split (chr "|") (trim line)) as [|key [|val rest]];
    cbn [nth_error]; try reflexivity.
  now destruct (truthy key), (truthy val).
Qed.

Lemma key_value_truthy line kv :
  key_value line = Some kv -> truthy (trim line) = true.
Proof.
  unfold key_value. destruct (trim line) as [|c s]; [discriminate|].
  reflexivity.
Qed.


Lemma storeLines_cons res line after :
  storeLines res (line :: after) =
  storeLines
    (match key_value line with
     | Some (key, val) =>
         set_entry res key
           {| value := parseFloat val; unit := lit "%";
              interpretation := None |}
     | None => res
     end) after.
Proof.
  unfold storeLines. cbn [List.map filter].
  destruct (truthy (trim line)) eqn:Ht; cbn [fold_left].
  - now rewrite storeLine_key_value.
  - destruct (key_value line) as [kv|] eqn:Hkv; [|reflexivity].
    apply key_value_truthy in Hkv. congruence.
Qed.





End ResultLines.



(** ** Without an [HbA1c] entry there is no interpretation *)

Section NoInterpretation.

Lemma plain_set_entry res key e :
  plain res -> interpretation e = None -> plain (set_entry res key e).
Proof.
  intros Hres He key' e' Hget.
  destruct (list_eq_dec N.eq_dec key key') as [<- | Hk].
  - rewrite get_entry_set_same in Hget. congruence.
  - rewrite get_entry_set_other in Hget by assumption. eauto.
Qed.

Lemma plain_storeLines lines : forall res,
  plain res -> plain (storeLines res lines).
Proof.
  induction lines as [|l lines IH]; intros res Hres; [exact Hres|].
  rewrite storeLines_cons. apply IH.
  destruct (key_value l) as [[k v]|]; [|exact Hres].
  now apply plain_set_entry.
Qed.

Lemma plain_empty : plain empty_object.
Proof.
  intros key e. unfold get_entry, empty_object; cbn [own proto assoc_get].
  now destruct (streq key PROTO).
Qed.

Lemma plain_parseResults clean res :
  parseResults clean = inr res -> plain res.
Proof.
  unfold parseResults.
  destruct (regex_match re_R clean) as [[body|]|]; cbn; intros H;
    try discriminate; injection H as <-.
  - apply plain_storeLines, plain_empty.
  - apply plain_empty.
Qed.

(** The part of C1 that the code keeps: without an entry [HbA1c], no
    entry of the results has an interpretation. *)
Lemma no_HbA1c_no_interpretation now raw_ r :
  parseProtocol now raw_ = inr r ->
  get_entry (results r) HbA1c = None ->
  plain (results r).
Proof.
  intros Hp Hnone.
  destruct (results_of_parseProtocol _ _ _ Hp) as [res [Hres Hr]].
  rewrite Hr in Hnone |- *. rewrite interpretHbA1c_HbA1c in Hnone.
  assert (Hno : assoc_get HbA1c (own res) = None).
  { unfold get_entry in Hnone. change (streq HbA1c PROTO) with false in Hnone.
    now destruct (assoc_get HbA1c (own res)). }
  unfold interpretHbA1c. rewrite Hno.
  now apply (plain_parseResults (normalize raw_)).
Qed.

End NoInterpretation.

(** ** The scenario of the specification, end to end *)

Set Warnings "-inexact-float".

(** The message of the scenario, split inside its delimiters, is framed
    once and decoded to the record that the specification gives. *)
Lemma scenario_end_to_end :
  exists r si e,
    feed (method_parseProtocol (lit "2024-01-01T10:00:05.000Z")) fresh
      [firstn 3 scenario_message; skipn 3 scenario_message]
    = (fresh, [emit_results r])
    /\ machineInfo r
       = Some {| model := Some (lit "GQ-1000");
                 serialNumber := Some (lit "SN123") |}
    /\ sampleInfo r = Some si /\ sampleType si = lit "whole_blood"
    /\ own (results r) = [(HbA1c, e)] /\ proto (results r) = None
    /\ value e = 5.4%float /\ unit e = lit "%"
    /\ interpretation e = Some (lit "Normal").
Proof.
  eexists. eexists. eexists.
  split; [vm_compute; reflexivity|].
  repeat split; vm_compute; reflexivity.
Qed.

(** Framer and decoder together: a complete message under the ceiling, in
    any chunking, is answered by exactly one [results] event, whose record
    keeps the message text. *)
Lemma complete_message_decoded now m chunks :
  complete_message m = true ->
  (strlen m <= CEILING + 1)%Z ->
  List.concat chunks = m ->
  exists r,
    feed (method_parseProtocol now) fresh chunks = (fresh, [emit_results r])
    /\ raw r = m /\ receivedAt r = now.
Proof.
  intros Hm Hlen Hcat.
  destruct (parseProtocol_total now m) as [mi [si [res [_ [_ [_ Hp]]]]]].
  rewrite (feed_complete_message _ m chunks Hm Hlen Hcat).
  unfold _handleCompleteMessage, method_parseProtocol. rewrite Hp.
  eexists. split; [reflexivity|]. split; reflexivity.
Qed.

(** The values of the specification, read from the text of a message. *)
Lemma HbA1c_examples :
  interpretation_of (lit "5.6") = Some (lit "Normal")
  /\ interpretation_of (lit "6.0") = Some (lit "Prediabetes")
  /\ interpretation_of (lit "7.0") = Some (lit "Diabetes")
  /\ interpretation_of (lit "5.7") = Some (lit "Prediabetes")
  /\ interpretation_of (lit "6.5") = Some (lit "Diabetes")
  /\ interpretation_of (lit "5.699999999999999") = Some (lit "Normal")
  /\ interpretation_of (lit "n/a") = Some (lit "Diabetes")
  /\ parseFloat (lit "5.7") = 5.7%float
  /\ parseFloat (lit "6.5") = 6.5%float.
Proof. repeat split; vm_compute; reflexivity. Qed.

(** An empty fifth field of the sample record reads as the number 0. *)
Lemma empty_code_is_zero :
  Number (Some []) = zero
  /\ typeMap (Number (Some [])) = Some (lit "whole_blood")
  /\ typeMap (Number (Some (lit "7"))) = None
  /\ typeMap (Number (Some (lit "abc"))) = None
  /\ typeMap (Number None) = None.
Proof. repeat split; vm_compute; reflexivity. Qed.

(** A line whose key is [__proto__] makes its entry the prototype of the
    results object: the entry is what [results["__proto__"]] reads, and is
    not among the own properties. *)
Lemma proto_line_goes_to_the_prototype :
  exists r e,
    parseProtocol [] lenient_message = inr r
    /\ List.map fst (own (results r)) = [HbA1c; lit "HbX"]
    /\ get_entry (results r) PROTO = Some e
    /\ proto (results r) = Some e
    /\ is_nan (value e) = true.
Proof.
  eexists. eexists.
  split; [vm_compute; reflexivity|].
  repeat split; vm_compute; reflexivity.
Qed.

Set Warnings "inexact-float".

(** * Further properties of the code *)

(** ** Streams of several messages *)

Section Streams.

Variables R E : Type.
Variable parse : Framer -> jsstring -> E + R.

(** Noise before a start delimiter leaves no trace. *)
Lemma run_skip_noise noise rest :
  quiet noise = true ->
  _onData parse fresh (noise ++ SEND_OPEN ++ rest)
  = _onData parse (mkFramer RECEIVING SEND_OPEN) rest.
Proof.
  unfold quiet. rewrite andb_true_iff, negb_true_iff, Z.leb_le.
  intros [Hno Hlen].
  change SEND_OPEN with (removelast SEND_OPEN ++ [chr ">"]) at 1.
  rewrite <- app_assoc, app_assoc, run_app. unfold fresh at 1.
  rewrite run_idle_keep by assumption. rewrite run_app.
  cbn [_onData app]. rewrite consume_start.
  - now destruct (_onData parse (mkFramer RECEIVING SEND_OPEN) rest).
  - rewrite <- app_assoc.
    change (removelast SEND_OPEN ++ [chr ">"]) with (SEND_OPEN ++ []).
    apply includes_slice.
Qed.

(** A complete message, then the rest of the stream. *)
Lemma run_message_then m rest :
  complete_message m = true ->
  (strlen m <= CEILING + 1)%Z ->
  _onData parse fresh (m ++ rest)
  = (fst (_onData parse fresh rest),
     _handleCompleteMessage parse fresh m ++ snd (_onData parse fresh rest)).
Proof.
  intros Hm Hlen. rewrite run_app, run_complete_message by assumption.
  now destruct (_onData parse fresh rest).
Qed.

Lemma run_noise_message noise m rest :
  quiet noise = true ->
  complete_message m = true ->
  (strlen m <= CEILING + 1)%Z ->
  _onData parse fresh (noise ++ m ++ rest)
  = (fst (_onData parse fresh rest),
     _handleCompleteMessage parse fresh m ++ snd (_onData parse fresh rest)).
Proof.
  intros Hq Hm Hlen. rewrite <- (run_message_then m rest Hm Hlen).
  destruct (complete_message_inv m Hm) as [mid [c [-> _]]].
  rewrite <- !app_assoc, run_skip_noise by assumption.
  rewrite (run_app _ _ parse fresh SEND_OPEN), run_open.
  now destruct (_onData parse (mkFramer RECEIVING SEND_OPEN)
                  (mid ++ [c] ++ rest)).
Qed.

Lemma run_stream items : forall tail,
  Forall (fun item => quiet (fst item) = true
                      /\ complete_message (snd item) = true
                      /\ (strlen (snd item) <= CEILING + 1)%Z) items ->
  includes tail SEND_OPEN = false ->
  (strlen tail <= CEILING)%Z ->
  _onData parse fresh (stream items tail)
  = (mkFramer IDLE tail,
     flat_map (fun item => _handleCompleteMessage parse fresh (snd item))
       items).
Proof.
  induction items as [|[noise m] items IH]; intros tail Hall Hno Hlen;
    unfold stream; cbn [flat_map fst snd app].
  - unfold fresh. now rewrite run_idle_keep.
  - inversion Hall as [|? ? [Hq [Hm Hm']] Hall']; subst. cbn [fst snd] in *.
    rewrite <- !app_assoc.
    rewrite (run_noise_message noise m _ Hq Hm Hm').
    fold (stream items tail). now rewrite (IH tail Hall' Hno Hlen).
Qed.

End Streams.

(** X1. Messages sent one after the other are each emitted, in order: for
    a stream of complete messages of at most 100,001 characters, each
    after noise that holds no start delimiter and fits under the ceiling,
    followed by such noise, every chunking gives one event per message, in
    the order sent, and leaves the framer idle with the trailing noise as
    its buffer. *)
Theorem back_to_back_messages {R E} (parse : Framer -> jsstring -> E + R)
    (items : list (jsstring * jsstring)) (tail : jsstring)
    (chunks : list jsstring) :
  Forall (fun item => quiet (fst item) = true
                      /\ complete_message (snd item) = true
                      /\ (strlen (snd item) <= CEILING + 1)%Z) items ->
  includes tail SEND_OPEN = false ->
  (strlen tail <= CEILING)%Z ->
  List.concat chunks = stream items tail ->
  feed parse fresh chunks
  = (mkFramer IDLE tail,
     flat_map (fun item => _handleCompleteMessage parse fresh (snd item))
       items)
  /\ frames fresh chunks = List.map snd items.
Proof.
  intros Hall Hno Hlen Hcat. unfold frames.
  rewrite !feed_concat, Hcat, !run_stream by assumption.
  split; [reflexivity|]. cbn [snd].
  clear. induction items as [|item items IH]; [reflexivity|].
  cbn [flat_map List.map app]. now rewrite map_app, IH.
Qed.

Lemma back_to_back_messages_witness :
  feed echo fresh
    [lit "noise<SEND>HbA1c|5"; lit ".4</SEND><SE"; lit "ND>HbA1c|7</SEND>.."]
  = (mkFramer IDLE (lit ".."),
     flat_map (fun item => _handleCompleteMessage echo fresh (snd item))
       [(lit "noise", lit "<SEND>HbA1c|5.4</SEND>");
        ([], lit "<SEND>HbA1c|7</SEND>")])
  /\ frames fresh
       [lit "noise<SEND>HbA1c|5"; lit ".4</SEND><SE"; lit "ND>HbA1c|7</SEND>.."]
     = List.map snd
         [(lit "noise", lit "<SEND>HbA1c|5.4</SEND>");
          ([], lit "<SEND>HbA1c|7</SEND>")].
Proof.
  apply (back_to_back_messages echo
           [(lit "noise", lit "<SEND>HbA1c|5.4</SEND>");
            ([], lit "<SEND>HbA1c|7</SEND>")] (lit ".."));
    [ repeat constructor; now vm_compute
    | reflexivity | now vm_compute | reflexivity ].
Defined.

(** X2. An input that lacks the start delimiter or lacks the end delimiter
    emits nothing, whatever its length and chunking. *)
Theorem silent_without_delimiters {R E} (parse : Framer -> jsstring -> E + R)
    (chunks : list jsstring) :
  includes (List.concat chunks) SEND_OPEN = false
  \/ includes (List.concat chunks) SEND_CLOSE = false ->
  snd (feed parse fresh chunks) = [] /\ frames fresh chunks = [].
Proof.
  intros Hno.
  assert (Hnone : frames fresh chunks = []).
  { destruct (frames_inv chunks) as [_ Hall].
    destruct (frames fresh chunks) as [|m ms]; [reflexivity | exfalso].
    inversion Hall as [|? ? [Hw [a [b Hab]]] _]; subst.
    unfold well_framed in Hw. apply andb_true_iff in Hw as [Hw _].
    apply andb_true_iff in Hw as [Hs He].
    apply startsWith_iff in Hs as [s Hs]. apply endsWith_iff in He as [p He].
    destruct Hno as [Hno | Hno]; rewrite Hab in Hno.
    - rewrite Hs, <- !app_assoc, includes_slice in Hno. discriminate.
    - rewrite He, <- !app_assoc, (app_assoc a), includes_slice in Hno.
      discriminate. }
  split; [|exact Hnone]. now rewrite feed_frames, Hnone.
Qed.

Lemma silent_without_delimiters_witness :
  snd (feed echo fresh [lit "</SEND>HbA1c|5.4</SE"; lit "ND><SEN"; lit "D"])
  = []
  /\ frames fresh [lit "</SEND>HbA1c|5.4</SE"; lit "ND><SEN"; lit "D"] = [].
Proof.
  apply (silent_without_delimiters echo). left. reflexivity.
Defined.

(** X3. The buffer is bounded: from a state whose buffer holds at most
    100,000 characters, any input in any chunking leaves a buffer of at most
    100,000 characters, with any decoder. *)
Theorem buffer_stays_bounded {R E} (parse : Framer -> jsstring -> E + R)
    (this : Framer) (chunks : list jsstring) :
  (strlen (messageBuffer this) <= CEILING)%Z ->
  (strlen (messageBuffer (fst (feed parse this chunks))) <= CEILING)%Z.
Proof.
  intros Hlen. rewrite feed_frames. cbn [fst]. rewrite feed_concat.
  now apply run_bound.
Qed.

Lemma buffer_stays_bounded_witness :
  (strlen (messageBuffer
             (fst (feed echo fresh
                     [replicate 60000 (chr "x"); replicate 60000 (chr "y")])))
   <= CEILING)%Z.
Proof.
  apply (buffer_stays_bounded echo fresh). now vm_compute.
Defined.

(** ** The serial port *)

Section PortFacts.

Variables R E : Type.
Variable parse : Framer -> jsstring -> E + R.

Lemma results_of_app (a b : list (signal R E)) :
  results_of (a ++ b) = results_of a ++ results_of b.
Proof. apply flat_map_app. Qed.

Lemma results_of_emit (out : list (event R E)) :
  results_of (List.map emit out) = parsed_of out.
Proof.
  induction out as [|ev out IH]; [reflexivity|].
  cbn [List.map]. change (emit ev :: List.map emit out)
    with ([emit ev] ++ List.map emit out).
  rewrite results_of_app, IH. now destruct ev.
Qed.

Lemma parsed_of_app (a b : list (event R E)) :
  parsed_of (a ++ b) = parsed_of a ++ parsed_of b.
Proof. apply flat_map_app. Qed.

Lemma session_data pes : forall this,
  fst (session parse this pes) = fst (feed parse this (data_of pes))
  /\ results_of (snd (session parse this pes))
     = parsed_of (snd (feed parse this (data_of pes))).
Proof.
  induction pes as [|pe pes IH]; intros this; [split; reflexivity|].
  cbn [session]. destruct pe as [[err|] | data | err |];
    cbn [on_port_event data_of flat_map app];
    try (specialize (IH this); fold (data_of pes) in *;
         destruct (session parse this pes) as [this2 out2];
         cbn [fst snd app results_of flat_map] in *; exact IH).
  fold (data_of pes). cbn [feed].
  destruct (_onData parse this data) as [this1 out1].
  specialize (IH this1).
  destruct (session parse this1 pes) as [this2 out2].
  destruct (feed parse this1 (data_of pes)) as [this3 out3].
  cbn [fst snd] in *. destruct IH as [-> IH]. split; [reflexivity|].
  now rewrite results_of_app, results_of_emit, parsed_of_app, IH.
Qed.

End PortFacts.

(** X4. Port events other than data are transparent to the framing: the
    state after any sequence of open, data, error and close events is the
    state after its data chunks alone, and the decoded records emitted are
    the same, in the same order. In particular a message cut by an error
    or by a close and a reopening is still emitted whole; an error event
    and a close event emit one [error] and one [disconnected] and leave the
    state as it is. *)
Theorem port_events_are_transparent {R E}
    (parse : Framer -> jsstring -> E + R) (this : Framer)
    (pes : list (port_event E)) :
  fst (session parse this pes) = fst (feed parse this (data_of pes))
  /\ results_of (snd (session parse this pes))
     = parsed_of (snd (feed parse this (data_of pes)))
  /\ (forall err,
        on_port_event parse this (port_error err)
        = (this, [emit (emit_error err)]))
  /\ on_port_event parse this port_close = (this, [emit_disconnected]).
Proof.
  destruct (session_data R E parse pes this) as [Hstate Hout].
  repeat split; assumption.
Qed.

(** ** The constructor *)

Section OptionFacts.

Import Options.

Lemma ToBoolean_or a d : ToBoolean d = true -> ToBoolean (or a d) = true.
Proof. intros Hd. unfold or. now destruct (ToBoolean a) eqn:Ha. Qed.

Lemma or_settled a d : or (or a d) d = or a d.
Proof.
  unfold or. destruct (ToBoolean a) eqn:Ha; [now rewrite Ha|].
  now destruct (ToBoolean d).
Qed.

Lemma coalesce_settled a d : coalesce (coalesce a d) d = coalesce a d.
Proof. destruct a; try reflexivity; now destruct d. Qed.

Lemma coalesce_defined a d :
  d <> Undefined -> d <> Null ->
  coalesce a d <> Undefined /\ coalesce a d <> Null.
Proof. intros H1 H2. destruct a; cbn; split; (assumption || discriminate). Qed.

End OptionFacts.

(** X5. Whatever options the caller passes, the options of the instance
    hold a truthy baud rate, data bits, stop bits and parity, [rtscts] is
    [false], and the two flags are neither [undefined] nor [null]; a truthy
    value passed is kept, a flag passed as [false] stays [false], and a baud
    rate passed as 0 is replaced by 115200. Passing the options of an
    instance to the constructor gives them back. *)
Theorem options_are_settled (o : Options.options) :
  let e := Options.constructor o in
  Options.ToBoolean (Options.baudRate e) = true
  /\ Options.ToBoolean (Options.dataBits e) = true
  /\ Options.ToBoolean (Options.stopBits e) = true
  /\ Options.ToBoolean (Options.parity e) = true
  /\ Options.rtscts e = Options.Bool false
  /\ (Options.logCommunications e <> Options.Undefined
      /\ Options.logCommunications e <> Options.Null)
  /\ (Options.debugMode e <> Options.Undefined
      /\ Options.debugMode e <> Options.Null)
  /\ (Options.ToBoolean (Options.baudRate o) = true ->
      Options.baudRate e = Options.baudRate o)
  /\ (Options.logCommunications o = Options.Bool false ->
      Options.logCommunications e = Options.Bool false)
  /\ (Options.baudRate o = Options.Num 0 ->
      Options.baudRate e = Options.Num 115200)
  /\ Options.constructor e = e.
Proof.
  intros e. subst e. unfold Options.constructor.
  cbn [Options.baudRate Options.dataBits Options.stopBits Options.parity
       Options.rtscts Options.logCommunications Options.debugMode].
  repeat split; try (now apply ToBoolean_or);
    try (now apply coalesce_defined).
  - intros H. unfold Options.or. now rewrite H.
  - now intros ->.
  - now intros ->.
  - now rewrite !or_settled, !coalesce_settled.
Qed.

(** ** The results object, continued *)

Section ResultsShape.

Lemma assoc_set_keys key e l :
  List.map fst (assoc_set key e l)
  = if existsb (fun k => streq k key) (List.map fst l) then List.map fst l
    else List.map fst l ++ [key].
Proof.
  induction l as [|[k e'] l IH]; [reflexivity|].
  cbn [assoc_set List.map fst existsb].
  destruct (streq k key) eqn:Hk; cbn [orb List.map fst]; [reflexivity|].
  rewrite IH. now destruct (existsb (fun k0 => streq k0 key) (List.map fst l)).
Qed.

Lemma existsb_streq key l :
  existsb (fun k => streq k key) l = true <-> In key l.
Proof.
  rewrite existsb_exists. split.
  - intros [k [Hin Hk]]. apply streq_iff in Hk. now subst.
  - intros Hin. exists key. split; [exact Hin | apply streq_refl].
Qed.

Lemma assoc_set_NoDup key e l :
  NoDup (List.map fst l) -> NoDup (List.map fst (assoc_set key e l)).
Proof.
  intros Hl. rewrite assoc_set_keys.
  destruct (existsb (fun k => streq k key) (List.map fst l)) eqn:Hex;
    [exact Hl|].
  apply NoDup_app; [exact Hl | repeat constructor; intros [] |].
  intros k Hk [<- | []].
  apply existsb_streq in Hk. congruence.
Qed.

Lemma assoc_set_In key e l k :
  In k (List.map fst (assoc_set key e l)) ->
  k = key \/ In k (List.map fst l).
Proof.
  rewrite assoc_set_keys.
  destruct (existsb (fun k0 => streq k0 key) (List.map fst l)); [auto|].
  rewrite in_app_iff. intros [H | [<- | []]]; auto.
Qed.

Lemma assoc_get_In key l :
  In key (List.map fst l) <-> assoc_get key l <> None.
Proof.
  induction l as [|[k e] l IH]; cbn [assoc_get List.map fst In].
  - split; [intros [] | congruence].
  - destruct (streq k key) eqn:Hk.
    + apply streq_iff in Hk. split; [discriminate | auto].
    + rewrite <- IH. split; [|auto].
      intros [-> | H]; [|exact H]. now rewrite streq_refl in Hk.
Qed.

Lemma key_value_key line key val :
  key_value line = Some (key, val) -> truthy key = true.
Proof.
  unfold key_value.
  destruct (split (chr "|") (trim line)) as [|k [|v rest]]; try discriminate.
  destruct (truthy k) eqn:Hk, (truthy v); cbn [andb]; try discriminate.
  intros H. injection H as <- _. exact Hk.
Qed.

Lemma tidy_set_entry res key e :
  tidy res -> truthy key = true -> tidy (set_entry res key e).
Proof.
  intros [Hnd Hkeys] Hkey. unfold set_entry, keys in *.
  destruct (streq key PROTO) eqn:Hp; cbn [own]; [split; assumption|].
  split; [now apply assoc_set_NoDup|].
  intros k Hk. apply assoc_set_In in Hk as [-> | Hk]; [|auto].
  split; [exact Hkey|]. intros ->. now rewrite streq_refl in Hp.
Qed.

Lemma tidy_storeLines lines : forall res,
  tidy res -> tidy (storeLines res lines).
Proof.
  induction lines as [|l lines IH]; intros res Hres; [exact Hres|].
  rewrite storeLines_cons. apply IH.
  destruct (key_value l) as [[k v]|] eqn:Hkv; [|exact Hres].
  apply tidy_set_entry; [exact Hres|]. eapply key_value_key; eassumption.
Qed.

Lemma tidy_interpretHbA1c res : tidy res -> tidy (interpretHbA1c res).
Proof.
  intros [Hnd Hkeys]. unfold interpretHbA1c.
  destruct (assoc_get HbA1c (own res)) as [e|] eqn:He; [|split; assumption].
  assert (Hin : In HbA1c (List.map fst (own res)))
    by (apply assoc_get_In; congruence).
  apply existsb_streq in Hin.
  unfold tidy, keys in *. cbn [own]. rewrite assoc_set_keys, Hin.
  split; assumption.
Qed.

Lemma tidy_parseResults clean res : parseResults clean = inr res -> tidy res.
Proof.
  assert (Hempty : tidy empty_object) by (split; [constructor | intros ? []]).
  unfold parseResults.
  destruct (regex_match re_R clean) as [[body|]|];
    cbv beta iota delta [bind deref ret]; intros H;
    try discriminate; injection H as <-; [|exact Hempty].
  now apply tidy_storeLines.
Qed.

Lemma percent_storeLines lines : forall res,
  percent res -> percent (storeLines res lines).
Proof.
  induction lines as [|l lines IH]; intros res Hres; [exact Hres|].
  rewrite storeLines_cons. apply IH.
  destruct (key_value l) as [[k v]|]; [|exact Hres].
  intros key e Hget. destruct (list_eq_dec N.eq_dec k key) as [<- | Hk].
  - rewrite get_entry_set_same in Hget. now injection Hget as <-.
  - rewrite get_entry_set_other in Hget by assumption. eauto.
Qed.

Lemma percent_parseResults clean res :
  parseResults clean = inr res -> percent res.
Proof.
  assert (Hempty : percent empty_object).
  { intros key e. unfold get_entry, empty_object; cbn [own proto assoc_get].
    now destruct (streq key PROTO). }
  unfold parseResults.
  destruct (regex_match re_R clean) as [[body|]|];
    cbv beta iota delta [bind deref ret]; intros H;
    try discriminate; injection H as <-; [|exact Hempty].
  now apply percent_storeLines.
Qed.

Lemma percent_interpretHbA1c res : percent res -> percent (interpretHbA1c res).
Proof.
  intros Hres key e Hget.
  destruct (list_eq_dec N.eq_dec key HbA1c) as [-> | Hk].
  - rewrite interpretHbA1c_HbA1c in Hget.
    destruct (get_entry res HbA1c) as [e0|] eqn:He0; [|discriminate].
    injection Hget as <-. cbn [unit]. eauto.
  - rewrite interpretHbA1c_other in Hget by assumption. eauto.
Qed.

End ResultsShape.

(** X6. In every decoded record the own keys of [results] are pairwise
    distinct, non-empty and other than [__proto__], a key is an own key
    exactly when reading it finds an entry, and every entry that can be
    read has the unit [%]. *)
Theorem results_are_tidy (now raw_ : jsstring) :
  exists r,
    parseProtocol now raw_ = inr r
    /\ NoDup (keys (results r))
    /\ (forall key,
          In key (keys (results r)) -> truthy key = true /\ key <> PROTO)
    /\ (forall key,
          In key (keys (results r)) <->
          key <> PROTO /\ get_entry (results r) key <> None)
    /\ (forall key e, get_entry (results r) key = Some e -> unit e = lit "%").
Proof.
  destruct (parseProtocol_total now raw_) as [m [i [res [_ [_ [Hr Hp]]]]]].
  eexists. split; [exact Hp|]. cbn [results].
  destruct (tidy_interpretHbA1c res (tidy_parseResults _ _ Hr)) as [Hnd Hkeys].
  split; [exact Hnd|]. split; [exact Hkeys|]. split.
  - intros key. unfold keys, get_entry. split.
    + intros Hin. destruct (Hkeys key Hin) as [_ Hp'].
      split; [exact Hp'|]. rewrite (streq_neq _ _ Hp').
      now apply assoc_get_In.
    + intros [Hp' Hget]. rewrite (streq_neq _ _ Hp') in Hget.
      now apply assoc_get_In.
  - apply percent_interpretHbA1c. eapply percent_parseResults; eassumption.
Qed.

Set Warnings "-inexact-float".

Lemma interpret_labels v :
  interpret v = lit "Normal" \/ interpret v = lit "Prediabetes"
  \/ interpret v = lit "Diabetes".
Proof.
  unfold interpret.
  destruct (v <? 5.7)%float; [auto|]. destruct (v <? 6.5)%float; auto.
Qed.

Set Warnings "inexact-float".

(** X7. In every decoded record the entry [HbA1c], when there is one,
    carries one of the three labels, computed from its own value, and no
    other entry carries an interpretation. *)
Theorem only_HbA1c_is_interpreted (now raw_ : jsstring) :
  exists r,
    parseProtocol now raw_ = inr r
    /\ (forall e,
          get_entry (results r) HbA1c = Some e ->
          interpretation e = Some (interpret (value e))
          /\ (interpretation e = Some (lit "Normal")
              \/ interpretation e = Some (lit "Prediabetes")
              \/ interpretation e = Some (lit "Diabetes")))
    /\ (forall key e,
          key <> HbA1c -> get_entry (results r) key = Some e ->
          interpretation e = None).
Proof.
  destruct (parseProtocol_total now raw_) as [m [i [res [_ [_ [Hr Hp]]]]]].
  eexists. split; [exact Hp|]. cbn [results]. split.
  - intros e He. rewrite interpretHbA1c_HbA1c in He.
    destruct (get_entry res HbA1c) as [e0|]; [|discriminate].
    injection He as <-. cbn [interpretation value]. split; [reflexivity|].
    destruct (interpret_labels (value e0)) as [-> | [-> | ->]]; auto.
  - intros key e Hkey He. rewrite interpretHbA1c_other in He by assumption.
    eapply (plain_parseResults _ _ Hr); eassumption.
Qed.

(** ** Line endings *)

Section LineEndings.

Lemma cr_to_lf_no_CR s : no_CR (cr_to_lf s) = true.
Proof.
  induction s as [|c s IH]; [reflexivity|].
  cbn [cr_to_lf List.map no_CR forallb]. fold (cr_to_lf s). fold (no_CR (cr_to_lf s)).
  rewrite IH, andb_true_r. now destruct (N.eqb_spec c CR) as [-> | Hc];
    [|apply negb_true_iff, N.eqb_neq].
Qed.

Lemma cr_to_lf_fixed s : no_CR s = true -> cr_to_lf s = s.
Proof.
  induction s as [|c s IH]; [reflexivity|]. cbn [no_CR forallb].
  fold (no_CR s). rewrite andb_true_iff, negb_true_iff. intros [Hc Hs].
  cbn [cr_to_lf List.map]. fold (cr_to_lf s). now rewrite Hc, IH.
Qed.

Lemma crlf_to_lf_fixed s : no_CR s = true -> crlf_to_lf s = s.
Proof.
  induction s as [|c s IH]; [reflexivity|]. cbn [no_CR forallb].
  fold (no_CR s). rewrite andb_true_iff, negb_true_iff. intros [Hc Hs].
  rewrite crlf_to_lf_cons. destruct s as [|d s]; [reflexivity|].
  now rewrite Hc, IH.
Qed.

Lemma normalize_no_CR s : no_CR (normalize s) = true.
Proof. apply cr_to_lf_no_CR. Qed.

Lemma normalize_fixed s : no_CR s = true -> normalize s = s.
Proof.
  intros H. unfold normalize. now rewrite (crlf_to_lf_fixed s H), cr_to_lf_fixed.
Qed.

Lemma parseProtocol_normalized now raw_ :
  exists r,
    parseProtocol now raw_ = inr r
    /\ parseMachineInfo (normalize raw_) = inr (machineInfo r)
    /\ parseSampleInfo (normalize raw_) = inr (sampleInfo r)
    /\ (exists res, parseResults (normalize raw_) = inr res
                    /\ results r = interpretHbA1c res).
Proof.
  destruct (parseProtocol_total now raw_) as [m [i [res [Hm [Hi [Hr Hp]]]]]].
  eexists. split; [exact Hp|]. cbn [machineInfo sampleInfo results]. eauto.
Qed.

End LineEndings.

(** X8. Decoding is blind to line endings: two message texts that are equal
    once CR LF and CR are read as LF decode to the same machine info,
    sample info and results. The text after that replacement holds no CR,
    and is such a text itself. *)
Theorem line_endings_do_not_matter (now raw1 raw2 : jsstring) :
  normalize raw1 = normalize raw2 ->
  (exists r1 r2,
     parseProtocol now raw1 = inr r1 /\ parseProtocol now raw2 = inr r2
     /\ machineInfo r1 = machineInfo r2
     /\ sampleInfo r1 = sampleInfo r2
     /\ results r1 = results r2)
  /\ no_CR (normalize raw1) = true
  /\ normalize (normalize raw1) = normalize raw1.
Proof.
  intros Heq. split; [|split; [apply normalize_no_CR |
                               apply normalize_fixed, normalize_no_CR]].
  destruct (parseProtocol_normalized now raw1)
    as [r1 [Hp1 [Hm1 [Hi1 [res1 [Hr1 Hres1]]]]]].
  destruct (parseProtocol_normalized now raw2)
    as [r2 [Hp2 [Hm2 [Hi2 [res2 [Hr2 Hres2]]]]]].
  exists r1, r2. rewrite Heq in Hm1, Hi1, Hr1.
  repeat split; try assumption; congruence.
Qed.

Lemma line_endings_do_not_matter_witness :
  (exists r1 r2,
     parseProtocol [] (lit "<M>GQ|SN</M>" ++ [CR; LF] ++ lit "<R>" ++ [CR]
                       ++ lit "HbA1c|6" ++ [LF; CR] ++ lit "</R>") = inr r1
     /\ parseProtocol [] (lit "<M>GQ|SN</M>" ++ [LF] ++ lit "<R>" ++ [LF]
                          ++ lit "HbA1c|6" ++ [LF; LF] ++ lit "</R>") = inr r2
     /\ machineInfo r1 = machineInfo r2
     /\ sampleInfo r1 = sampleInfo r2
     /\ results r1 = results r2)
  /\ no_CR (normalize (lit "<M>GQ|SN</M>" ++ [CR; LF] ++ lit "<R>" ++ [CR]
                       ++ lit "HbA1c|6" ++ [LF; CR] ++ lit "</R>")) = true
  /\ normalize (normalize (lit "<M>GQ|SN</M>" ++ [CR; LF] ++ lit "<R>" ++ [CR]
                           ++ lit "HbA1c|6" ++ [LF; CR] ++ lit "</R>"))
     = normalize (lit "<M>GQ|SN</M>" ++ [CR; LF] ++ lit "<R>" ++ [CR]
                  ++ lit "HbA1c|6" ++ [LF; CR] ++ lit "</R>").
Proof.
  apply (line_endings_do_not_matter []). vm_compute; reflexivity.
Defined.

(** ** Where a section begins and ends *)

Section SectionText.

Lemma regex_match_at r s m1 :
  regex_match r s = Some m1 ->
  exists pre s',
    s = pre ++ s' /\ rmatch r s' None (fun _ cap => Some cap) = Some m1.
Proof.
  induction s as [|c s IH]; cbn [regex_match];
    destruct (rmatch r _ None (fun _ cap => Some cap)) as [m|] eqn:Hm;
    intros H; try discriminate.
  - injection H as ->. now exists [], [].
  - injection H as ->. now exists [], (c :: s).
  - destruct (IH H) as [pre [s' [-> Hs']]]. now exists (c :: pre), s'.
Qed.

(** A lazy star stops at the first place where the rest of the pattern
    matches. *)
Lemma star_lazy_first {A} cls s (k : jsstring -> option A) a :
  star_lazy cls s k = Some a ->
  exists w rest,
    s = w ++ rest /\ Forall (fun c => cls c = true) w /\ k rest = Some a
    /\ forall w1 w2, w = w1 ++ w2 -> w2 <> [] -> k (w2 ++ rest) = None.
Proof.
  induction s as [|c s IH]; cbn [star_lazy]; intros H.
  - destruct (k []) eqn:Hk; [|discriminate]. injection H as ->.
    exists [], []. repeat split; auto.
    intros w1 w2 Hw Hw2. destruct w1, w2; try discriminate. congruence.
  - destruct (k (c :: s)) eqn:Hk.
    + injection H as ->. exists [], (c :: s). repeat split; auto.
      intros w1 w2 Hw Hw2. destruct w1, w2; try discriminate. congruence.
    + destruct (cls c) eqn:Hc; [|discriminate].
      destruct (IH H) as [w [rest [-> [Hw [Hrest Hfirst]]]]].
      exists (c :: w), rest. repeat split; auto.
      intros w1 w2 Heq Hw2. destruct w1 as [|x w1]; cbn [app] in Heq.
      * subst w2. exact Hk.
      * injection Heq as _ Heq. eauto.
Qed.

Lemma firstn_prefix (w rest : jsstring) :
  firstn (length (w ++ rest) - length rest) (w ++ rest) = w.
Proof.
  rewrite length_app, Nat.add_sub, firstn_app, Nat.sub_diag, firstn_all.
  cbn [firstn]. apply app_nil_r.
Qed.

(** A lazily starred capture group followed by [tail]. *)
Lemma rmatch_lazy_group {A} cls tail s cap
    (k : jsstring -> option jsstring -> option A) a :
  rmatch (Seq (Group (Star false cls)) tail) s cap k = Some a ->
  exists w rest,
    s = w ++ rest /\ Forall (fun c => cls c = true) w
    /\ rmatch tail rest (Some w) k = Some a
    /\ forall w1 w2, w = w1 ++ w2 -> w2 <> [] ->
                     rmatch tail (w2 ++ rest) (Some w1) k = None.
Proof.
  cbn [rmatch]. intros H.
  apply star_lazy_first in H as [w [rest [-> [Hw [Hk Hfirst]]]]].
  exists w, rest. rewrite firstn_prefix in Hk.
  repeat split; auto.
  intros w1 w2 -> Hw2. specialize (Hfirst w1 w2 eq_refl Hw2).
  rewrite <- app_assoc in Hfirst.
  now rewrite (firstn_prefix w1 (w2 ++ rest)) in Hfirst.
Qed.

(** No closing tag inside what a lazy capture took, when every tail of it
    fails to start with the tag. *)
Lemma no_tag_inside w rest close :
  (forall w1 w2, w = w1 ++ w2 -> w2 <> [] ->
                 startsWith (w2 ++ rest) close = false) ->
  close <> [] ->
  includes w close = false.
Proof.
  intros Hfirst Hclose. destruct (includes w close) eqn:Hin; [|reflexivity].
  apply includes_iff in Hin as [a [b ->]].
  rewrite <- (Hfirst a (close ++ b) eq_refl).
  - symmetry. apply startsWith_iff. exists (b ++ rest).
    now rewrite <- app_assoc.
  - destruct close; [congruence | discriminate].
Qed.

Lemma re_M_text clean body :
  regex_match re_M clean = Some (Some body) ->
  exists pre post,
    clean = pre ++ lit "<M>" ++ body ++ lit "</M>" ++ post
    /\ Forall (fun c => isLineTerminator c = false) body
    /\ includes body (lit "</M>") = false.
Proof.
  intros H. apply regex_match_at in H as [pre [s' [-> H]]].
  unfold re_M in H. cbn [rmatch] in H.
  destruct (startsWith s' (lit "<M>")) eqn:Hopen; [|discriminate].
  apply startsWith_iff in Hopen as [s'' ->]. rewrite skipn_prefix in H.
  change (star_lazy dot s'' _ = Some (Some body))
    with (rmatch (Seq (Group (Star false dot)) (Lit (lit "</M>"))) s'' None
            (fun _ cap => Some cap) = Some (Some body)) in H.
  apply rmatch_lazy_group in H as [w [rest [-> [Hw [Hk Hfirst]]]]].
  cbn [rmatch] in Hk.
  destruct (startsWith rest (lit "</M>")) eqn:Hclose; [|discriminate].
  injection Hk as ->. apply startsWith_iff in Hclose as [post ->].
  exists pre, post. split; [reflexivity|]. split.
  - eapply Forall_impl; [|exact Hw]. intros c Hc. now apply negb_true_iff.
  - apply (no_tag_inside body (lit "</M>" ++ post)); [|discriminate].
    intros w1 w2 Hw12 Hw2. specialize (Hfirst w1 w2 Hw12 Hw2).
    cbn [rmatch] in Hfirst.
    now destruct (startsWith (w2 ++ lit "</M>" ++ post) (lit "</M>")).
Qed.

Lemma padded_tail_at_tag close y cap c0 t0 :
  close = c0 :: t0 -> space c0 = false ->
  rmatch (Seq (Star true space) (Lit close)) (close ++ y) cap
    (fun _ cap' => Some cap')
  = Some cap.
Proof.
  intros Hclose Hc0.
  assert (Hs : startsWith (close ++ y) close = true)
    by (apply startsWith_iff; eauto).
  cbn [rmatch]. rewrite Hclose in Hs |- *. cbn [app star_greedy] in Hs |- *.
  now rewrite Hc0, Hs.
Qed.

Lemma padded_text open close clean body :
  (exists c t, close = c :: t /\ space c = false) ->
  regex_match (padded open close) clean = Some (Some body) ->
  exists pre before after post,
    clean = pre ++ open ++ before ++ body ++ after ++ close ++ post
    /\ Forall (fun c => isWhiteSpace c = true) before
    /\ Forall (fun c => isWhiteSpace c = true) after
    /\ includes body close = false.
Proof.
  intros [c0 [t0 [Hclose Hc0]]] H.
  apply regex_match_at in H as [pre [s' [-> H]]].
  unfold padded in H. cbn [rmatch] in H.
  destruct (startsWith s' open) eqn:Hopen; [|discriminate].
  apply startsWith_iff in Hopen as [s1 ->]. rewrite skipn_prefix in H.
  apply star_greedy_sound in H as [before [s2 [-> [Hbefore H]]]].
  change (star_lazy any s2 _ = Some (Some body))
    with (rmatch (Seq (Group (Star false any))
                    (Seq (Star true space) (Lit close))) s2 None
            (fun _ cap => Some cap) = Some (Some body)) in H.
  apply rmatch_lazy_group in H as [w [s3 [-> [_ [Hk Hfirst]]]]].
  cbn [rmatch] in Hk.
  apply star_greedy_sound in Hk as [after [s4 [-> [Hafter Hk]]]].
  destruct (startsWith s4 close) eqn:Hend; [|discriminate].
  injection Hk as ->. apply startsWith_iff in Hend as [post ->].
  exists pre, before, after, post.
  split; [reflexivity|]. split; [exact Hbefore|].
  split; [exact Hafter|].
  apply (no_tag_inside body (after ++ close ++ post));
    [|rewrite Hclose; discriminate].
  intros w1 w2 Hw12 Hw2.
  destruct (startsWith (w2 ++ after ++ close ++ post) close) eqn:Hs;
    [|reflexivity].
  specialize (Hfirst w1 w2 Hw12 Hw2).
  apply startsWith_iff in Hs as [y Hy]. rewrite Hy in Hfirst.
  rewrite (padded_tail_at_tag close y (Some w1) c0 t0 Hclose Hc0) in Hfirst.
  discriminate.
Qed.

End SectionText.

(** X9. The body that [parseProtocol] takes for a section is text of the
    message: the normalised text holds the opening tag, the body and the
    closing tag in a row, for [<I>] and [<R>] with white space only between
    the tags and the body; the body of [<M>] holds no line terminator; and
    the body never holds the closing tag, so a section ends at the first
    closing tag after its opening tag. *)
Theorem sections_are_message_text (clean body : jsstring) :
  (regex_match re_M clean = Some (Some body) ->
   exists pre post,
     clean = pre ++ lit "<M>" ++ body ++ lit "</M>" ++ post
     /\ Forall (fun c => isLineTerminator c = false) body
     /\ includes body (lit "</M>") = false)
  /\ (regex_match re_I clean = Some (Some body) ->
      exists pre before after post,
        clean = pre ++ lit "<I>" ++ before ++ body ++ after ++ lit "</I>"
                    ++ post
        /\ Forall (fun c => isWhiteSpace c = true) before
        /\ Forall (fun c => isWhiteSpace c = true) after
        /\ includes body (lit "</I>") = false)
  /\ (regex_match re_R clean = Some (Some body) ->
      exists pre before after post,
        clean = pre ++ lit "<R>" ++ before ++ body ++ after ++ lit "</R>"
                    ++ post
        /\ Forall (fun c => isWhiteSpace c = true) before
        /\ Forall (fun c => isWhiteSpace c = true) after
        /\ includes body (lit "</R>") = false).
Proof.
  split; [apply re_M_text | split].
  - change re_I with (padded (lit "<I>") (lit "</I>")).
    apply padded_text. exists (chr "<"), (lit "/I>"). now split.
  - change re_R with (padded (lit "<R>") (lit "</R>")).
    apply padded_text. exists (chr "<"), (lit "/R>"). now split.
Qed.

Lemma sections_are_message_text_witness :
  let clean := normalize scenario_message in
  (exists pre post,
     clean = pre ++ lit "<M>" ++ lit "GQ-1000|SN123" ++ lit "</M>" ++ post
     /\ Forall (fun c => isLineTerminator c = false) (lit "GQ-1000|SN123")
     /\ includes (lit "GQ-1000|SN123") (lit "</M>") = false)
  /\ (exists pre before after post,
        clean = pre ++ lit "<I>" ++ before
                    ++ lit "0|2024-01-01T10:00|S1|A1|0" ++ after
                    ++ lit "</I>" ++ post
        /\ Forall (fun c => isWhiteSpace c = true) before
        /\ Forall (fun c => isWhiteSpace c = true) after
        /\ includes (lit "0|2024-01-01T10:00|S1|A1|0") (lit "</I>") = false)
  /\ (exists pre before after post,
        clean = pre ++ lit "<R>" ++ before ++ lit "HbA1c|5.4" ++ after
                    ++ lit "</R>" ++ post
        /\ Forall (fun c => isWhiteSpace c = true) before
        /\ Forall (fun c => isWhiteSpace c = true) after
        /\ includes (lit "HbA1c|5.4") (lit "</R>") = false).
Proof.
  split; [|split].
  - apply (proj1 (sections_are_message_text (normalize scenario_message)
                    (lit "GQ-1000|SN123"))).
    vm_compute; reflexivity.
  - apply (proj1 (proj2 (sections_are_message_text
                           (normalize scenario_message)
                           (lit "0|2024-01-01T10:00|S1|A1|0")))).
    vm_compute; reflexivity.
  - apply (proj2 (proj2 (sections_are_message_text
                           (normalize scenario_message)
                           (lit "HbA1c|5.4")))).
    vm_compute; reflexivity.
Defined.

(** ** Machine info *)

Section MachineInfoFacts.

Lemma split_cons sep s : exists first rest, split sep s = first :: rest.
Proof.
  induction s as [|c s [first [rest IH]]]; cbn [split]; [eauto|].
  destruct (c =? sep)%N; [eauto|]. rewrite IH. eauto.
Qed.

Lemma parseMachineInfo_match clean body :
  regex_match re_M clean = Some (Some body) ->
  parseMachineInfo clean =
  inr (Some {| model := option_map trim (nth_error (split (chr "|") body) 0);
               serialNumber :=
                 option_map trim (nth_error (split (chr "|") body) 1) |}).
Proof. unfold parseMachineInfo. now intros ->. Qed.

End MachineInfoFacts.

(** X10. For every message with an [<M>] section, [machineInfo] holds the
    first two [|]-separated fields of the section body, each trimmed: the
    model is always there; a body without [|] gives the trimmed body as the
    model and no serial number; fields after the second are ignored. *)
Theorem machine_fields (now raw_ body : jsstring) :
  regex_match re_M (normalize raw_) = Some (Some body) ->
  exists r mi,
    parseProtocol now raw_ = inr r
    /\ machineInfo r = Some mi
    /\ (exists first, model mi = Some (trim first))
    /\ (no_bar body = true ->
        model mi = Some (trim body) /\ serialNumber mi = None)
    /\ (forall a b tail,
          body = a ++ chr "|" :: b ++ tail ->
          no_bar a = true -> no_bar b = true ->
          tail = [] \/ (exists t, tail = chr "|" :: t) ->
          model mi = Some (trim a) /\ serialNumber mi = Some (trim b)).
Proof.
  intros Hmatch.
  destruct (parseProtocol_total now raw_) as [m [i [r [Hm [_ [_ Hp]]]]]].
  rewrite (parseMachineInfo_match _ _ Hmatch) in Hm.
  match type of Hm with inr (Some ?mi) = _ =>
    assert (Em : m = Some mi) by congruence
  end.
  subst m. eexists. eexists. split; [exact Hp|]. split; [reflexivity|].
  cbn [model serialNumber]. split; [|split].
  - destruct (split_cons (chr "|") body) as [first [rest ->]]. now exists first.
  - intros Hbar. now rewrite (split_no_sep _ _ Hbar).
  - intros a b tail -> Ha Hb [-> | [t ->]].
    + rewrite app_nil_r, (split_at_sep _ _ _ Ha), (split_no_sep _ _ Hb).
      now split.
    + rewrite (split_at_sep _ _ _ Ha), (split_at_sep _ _ _ Hb). now split.
Qed.

Lemma machine_fields_witness :
  exists r mi,
    parseProtocol [] scenario_message = inr r
    /\ machineInfo r = Some mi
    /\ model mi = Some (lit "GQ-1000")
    /\ serialNumber mi = Some (lit "SN123").
Proof.
  destruct (machine_fields [] scenario_message (lit "GQ-1000|SN123"))
    as [r [mi [Hp [Hmi [_ [_ Hfields]]]]]]; [vm_compute; reflexivity|].
  exists r, mi. split; [exact Hp|]. split; [exact Hmi|].
  apply (Hfields (lit "GQ-1000") (lit "SN123") []);
    [reflexivity | reflexivity | reflexivity | now left].
Defined.

(** ** Diagnostics *)

Section DiagnosticFacts.

Import Diagnostics.

Lemma isTokenChar_iff c :
  isTokenChar c = true <->
  (48 <= c <= 57 \/ 65 <= c <= 90 \/ 97 <= c <= 122 \/ c = 91 \/ c = 93)%N.
Proof.
  unfold isTokenChar.
  rewrite !orb_true_iff, !andb_true_iff, !N.leb_le, !N.eqb_eq. tauto.
Qed.

Lemma hexDigit_token d : (d < 16)%N -> isTokenChar (hexDigit d) = true.
Proof.
  intros Hd. apply isTokenChar_iff. unfold hexDigit.
  destruct (N.ltb_spec d 10); lia.
Qed.

Lemma toString16_from_token fuel : forall n acc,
  Forall (fun c => isTokenChar c = true) acc ->
  Forall (fun c => isTokenChar c = true) (toString16_from fuel n acc).
Proof.
  induction fuel as [|fuel IH]; intros n acc Hacc; cbn [toString16_from];
    [exact Hacc|].
  destruct (n =? 0)%N; [exact Hacc|]. apply IH. constructor; [|exact Hacc].
  apply hexDigit_token. apply N.mod_lt. discriminate.
Qed.

Lemma toString16_token n :
  Forall (fun c => isTokenChar c = true) (toString16 n).
Proof.
  unfold toString16. destruct (n =? 0)%N.
  - now repeat constructor.
  - apply toString16_from_token. constructor.
Qed.

Lemma token_not_escaped c :
  isTokenChar c = true -> isLogEscaped c = false /\ isControl c = false.
Proof.
  intros H. apply isTokenChar_iff in H.
  unfold isLogEscaped, isControl.
  rewrite !orb_false_iff, !andb_false_iff, !N.leb_gt, !N.eqb_neq. lia.
Qed.

Lemma toUpperCase_token s :
  Forall (fun c => isTokenChar c = true) s ->
  Forall (fun c => isTokenChar c = true) (toUpperCase s).
Proof.
  intros H. unfold toUpperCase. apply Forall_map.
  eapply Forall_impl; [|exact H]. intros c Hc.
  apply isTokenChar_iff in Hc.
  destruct ((97 <=? c) && (c <=? 122))%N eqn:Hlow;
    apply isTokenChar_iff; [|exact Hc].
  apply andb_true_iff in Hlow as [H1 H2].
  apply N.leb_le in H1, H2. lia.
Qed.

Lemma padStart_token n s :
  Forall (fun c => isTokenChar c = true) s ->
  Forall (fun c => isTokenChar c = true) (padStart n (chr "0") s).
Proof.
  intros H. unfold padStart. apply Forall_app. split; [|exact H].
  apply Forall_forall. intros c Hc. apply repeat_spec in Hc. now subst.
Qed.

Lemma visible_token c : Forall (fun x => isTokenChar x = true) (visible c).
Proof.
  unfold visible.
  destruct (c =? 13)%N; [now repeat constructor|].
  destruct (c =? 10)%N; [now repeat constructor|].
  destruct (c =? 9)%N; [now repeat constructor|].
  apply Forall_app. split; [now repeat constructor|].
  apply Forall_app. split; [|now repeat constructor].
  apply toUpperCase_token, padStart_token, toString16_token.
Qed.

(** Replacing the characters of a class by tokens free of the class. *)
Lemma escape_facts (cls : char -> bool) (token : char -> jsstring) :
  (forall c, Forall (fun x => cls x = false) (token c)) ->
  (forall c, token c <> []) ->
  let escape := flat_map (fun c => if cls c then token c else [c]) in
  (forall s, Forall (fun x => cls x = false) (escape s))
  /\ (forall s t, escape (s ++ t) = escape s ++ escape t)
  /\ (forall s, Forall (fun x => cls x = false) s -> escape s = s)
  /\ (forall s, escape (escape s) = escape s)
  /\ (forall s, length s <= length (escape s)).
Proof.
  intros Htoken Hne escape.
  assert (Hclean : forall s, Forall (fun x => cls x = false) (escape s)).
  { induction s as [|c s IH]; [constructor|].
    unfold escape. cbn [flat_map]. apply Forall_app. split; [|exact IH].
    destruct (cls c) eqn:Hc; [apply Htoken | now repeat constructor]. }
  assert (Hfixed : forall s,
             Forall (fun x => cls x = false) s -> escape s = s).
  { induction s as [|c s IH]; [reflexivity|]. intros H.
    inversion H as [|? ? Hc Hs]; subst. unfold escape. cbn [flat_map].
    rewrite Hc. cbn [app]. f_equal. now apply IH. }
  split; [exact Hclean|]. split; [intros s t; apply flat_map_app|].
  split; [exact Hfixed|]. split; [intros s; apply Hfixed, Hclean|].
  induction s as [|c s IH]; [apply Nat.le_refl|].
  unfold escape. cbn [flat_map]. rewrite length_app. cbn [length].
  destruct (cls c).
  - specialize (Hne c). destruct (token c); [congruence|].
    cbn [length]. fold (escape s). lia.
  - cbn [length]. fold (escape s). lia.
Qed.

End DiagnosticFacts.

(** X11. The text that [_onData] logs holds none of the control characters
    that the pattern names (all of them but TAB, LF and CR); a text without
    them is logged as it is; logging a text that was logged changes
    nothing; the log of two texts in a row is the two logs in a row; and
    the logged text is never shorter than the text. *)
Theorem logged_text_is_printable (s t : jsstring) :
  Forall (fun c => Diagnostics.isLogEscaped c = false)
    (Diagnostics.printable s)
  /\ Diagnostics.printable (s ++ t)
     = Diagnostics.printable s ++ Diagnostics.printable t
  /\ (Forall (fun c => Diagnostics.isLogEscaped c = false) s ->
      Diagnostics.printable s = s)
  /\ Diagnostics.printable (Diagnostics.printable s) = Diagnostics.printable s
  /\ length s <= length (Diagnostics.printable s).
Proof.
  destruct (escape_facts Diagnostics.isLogEscaped
              (fun c => lit "[0x" ++ Diagnostics.toString16 c ++ lit "]"))
    as [H1 [H2 [H3 [H4 H5]]]].
  - intros c. apply Forall_app. split; [now repeat constructor|].
    apply Forall_app. split; [|now repeat constructor].
    eapply Forall_impl; [|apply toString16_token].
    intros x Hx. now apply token_not_escaped.
  - discriminate.
  - repeat split; [apply H1 | apply H2 | apply H3 | apply H4 | apply H5].
Qed.

(** X12. The readable text of simple-listener.js holds no control
    character at all; a text without control characters is shown as it is;
    showing twice changes nothing; the readable text of two texts in a row
    is the two readable texts in a row; and it is never shorter than the
    text. *)
Theorem readable_text_has_no_control (s t : jsstring) :
  Forall (fun c => Diagnostics.isControl c = false) (Diagnostics.readable s)
  /\ Diagnostics.readable (s ++ t)
     = Diagnostics.readable s ++ Diagnostics.readable t
  /\ (Forall (fun c => Diagnostics.isControl c = false) s ->
      Diagnostics.readable s = s)
  /\ Diagnostics.readable (Diagnostics.readable s) = Diagnostics.readable s
  /\ length s <= length (Diagnostics.readable s).
Proof.
  destruct (escape_facts Diagnostics.isControl Diagnostics.visible)
    as [H1 [H2 [H3 [H4 H5]]]].
  - intros c. eapply Forall_impl; [|apply visible_token].
    intros x Hx. now apply token_not_escaped.
  - intros c. unfold Diagnostics.visible.
    destruct (c =? 13)%N; [discriminate|].
    destruct (c =? 10)%N; [discriminate|].
    destruct (c =? 9)%N; discriminate.
  - repeat split; [apply H1 | apply H2 | apply H3 | apply H4 | apply H5].
Qed.

(** ** The hex dump of simple-listener.js *)

Section HexDump.

Import Diagnostics.

Lemma token_not_terminator c :
  isTokenChar c = true -> isLineTerminator c = false.
Proof.
  intros H. apply isTokenChar_iff in H. unfold isLineTerminator, LF, CR.
  rewrite !orb_false_iff, !N.eqb_neq. lia.
Qed.

Lemma byte_digits b :
  (b < 256)%N -> (b / 16 < 16)%N /\ (b mod 16 < 16)%N.
Proof.
  intros Hb. split; [|apply N.mod_lt; discriminate].
  apply N.Div0.div_lt_upper_bound. exact Hb.
Qed.

Lemma match_pairs_hex data :
  bytes data -> match_pairs (toString_hex data) = List.map byteHex data.
Proof.
  induction 1 as [|b data Hb _ IH]; [reflexivity|].
  destruct (byte_digits b Hb) as [Hhi Hlo].
  cbn [toString_hex flat_map List.map]. fold (toString_hex data).
  unfold byteHex at 1. cbn [app match_pairs].
  rewrite (token_not_terminator _ (hexDigit_token _ Hhi)).
  rewrite (token_not_terminator _ (hexDigit_token _ Hlo)).
  now rewrite IH.
Qed.

Lemma hexDigit_inj d1 d2 :
  (d1 < 16)%N -> (d2 < 16)%N -> hexDigit d1 = hexDigit d2 -> d1 = d2.
Proof.
  unfold hexDigit. intros H1 H2.
  destruct (N.ltb_spec d1 10), (N.ltb_spec d2 10); lia.
Qed.

Lemma byteHex_inj b1 b2 :
  (b1 < 256)%N -> (b2 < 256)%N -> byteHex b1 = byteHex b2 -> b1 = b2.
Proof.
  intros H1 H2 H. unfold byteHex in H. injection H as Hhi Hlo.
  destruct (byte_digits b1 H1), (byte_digits b2 H2).
  apply hexDigit_inj in Hhi, Hlo; try assumption.
  rewrite (N.div_mod b1 16), (N.div_mod b2 16) by discriminate.
  now rewrite Hhi, Hlo.
Qed.

Lemma toString_hex_inj data : forall data',
  bytes data -> bytes data' ->
  toString_hex data = toString_hex data' -> data = data'.
Proof.
  induction data as [|b data IH]; intros [|b' data'] Hd Hd' H;
    try reflexivity; try discriminate.
  inversion Hd as [|? ? Hb Hdata]; inversion Hd' as [|? ? Hb' Hdata']; subst.
  cbn [toString_hex flat_map byteHex app] in H. injection H as Hhi Hlo Hrest.
  f_equal; [|now apply IH].
  apply byteHex_inj; try assumption. unfold byteHex. now rewrite Hhi, Hlo.
Qed.

Lemma slice_16 {A} i (l : list A) :
  slice i (i + 16) l = firstn 16 (skipn i l).
Proof. unfold slice. now rewrite Nat.add_comm, Nat.add_sub. Qed.

(** The turns of the loop, with enough fuel: the chunks in a row are the
    list from the first offset on. *)
Lemma rowsFrom_concat (hex : list jsstring) fuel : forall i,
  length hex - i <= fuel ->
  List.concat (List.map snd (rowsFrom fuel i hex)) = skipn i hex.
Proof.
  induction fuel as [|fuel IH]; intros i Hfuel; cbn [rowsFrom].
  - cbn [List.map List.concat]. symmetry. apply skipn_all2. lia.
  - destruct (Nat.ltb_spec i (length hex)) as [Hi | Hi].
    + cbn [List.map List.concat snd]. rewrite IH by lia.
      rewrite slice_16, (Nat.add_comm i 16), <- skipn_skipn.
      apply firstn_skipn.
    + cbn [List.map List.concat]. symmetry. now apply skipn_all2.
Qed.

Lemma rowsFrom_nth (hex : list jsstring) fuel : forall i k row,
  nth_error (rowsFrom fuel i hex) k = Some row ->
  fst row = i + 16 * k
  /\ snd row = slice (fst row) (fst row + 16) hex
  /\ fst row < length hex.
Proof.
  induction fuel as [|fuel IH]; intros i k row; cbn [rowsFrom].
  - now destruct k.
  - destruct (Nat.ltb_spec i (length hex)) as [Hi | Hi]; [|now destruct k].
    destruct k as [|k]; cbn [nth_error].
    + intros H. injection H as <-. cbn [fst snd]. repeat split; [lia | lia].
    + intros H. apply IH in H as [H1 [H2 H3]]. repeat split; [lia | auto | auto].
Qed.

Lemma rowsFrom_length (hex : list jsstring) fuel : forall i,
  length hex - i <= fuel ->
  length (rowsFrom fuel i hex) = (length hex - i + 15) / 16.
Proof.
  induction fuel as [|fuel IH]; intros i Hfuel; cbn [rowsFrom].
  - replace (length hex - i) with 0 by lia. reflexivity.
  - destruct (Nat.ltb_spec i (length hex)) as [Hi | Hi].
    + cbn [length]. rewrite IH by lia.
      destruct (Nat.le_gt_cases (i + 16) (length hex)) as [Hfull | Hlast].
      * replace (length hex - i + 15)
          with (length hex - (i + 16) + 15 + 1 * 16) by lia.
        rewrite Nat.div_add by discriminate. lia.
      * replace (length hex - (i + 16)) with 0 by lia.
        replace (length hex - i + 15)
          with (length hex - i - 1 + 1 * 16) by lia.
        rewrite Nat.div_add by discriminate.
        rewrite (Nat.div_small (length hex - i - 1)) by lia. reflexivity.
    + replace (length hex - i) with 0 by lia. reflexivity.
Qed.

End HexDump.

(** X13. The hex dump of simple-listener.js shows every byte of a chunk
    once and in order: there is one pair of digits per byte; the rows, read
    one after the other, are the pairs of all bytes; there are as many
    rows as sixteens in the length, rounded up; row [k] starts at offset
    [16 k] and holds the bytes from there on, at least one and at most
    sixteen; and two buffers with the same hexadecimal text are equal. *)
Theorem hexdump_covers_the_bytes (data : list N) :
  Diagnostics.bytes data ->
  let rows := Diagnostics.hexRows data in
  Diagnostics.match_pairs (Diagnostics.toString_hex data)
  = List.map Diagnostics.byteHex data
  /\ List.concat (List.map snd rows) = List.map Diagnostics.byteHex data
  /\ length (Diagnostics.hexdump data) = (length data + 15) / 16
  /\ (forall k row,
        nth_error rows k = Some row ->
        fst row = 16 * k
        /\ snd row
           = List.map Diagnostics.byteHex
               (Diagnostics.slice (16 * k) (16 * k + 16) data)
        /\ 1 <= length (snd row) <= 16)
  /\ (forall data',
        Diagnostics.bytes data' ->
        Diagnostics.toString_hex data = Diagnostics.toString_hex data' ->
        data = data').
Proof.
  intros Hbytes rows. subst rows.
  unfold Diagnostics.hexdump, Diagnostics.hexRows.
  rewrite (match_pairs_hex data Hbytes).
  set (hex := List.map Diagnostics.byteHex data).
  assert (Hlen : length hex = length data) by apply length_map.
  split; [reflexivity|]. split; [|split; [|split]].
  - now rewrite rowsFrom_concat by lia.
  - rewrite length_map, rowsFrom_length by lia. now rewrite Nat.sub_0_r, Hlen.
  - intros k row Hrow. apply rowsFrom_nth in Hrow as [Hoff [Hchunk Hin]].
    cbn [Nat.add] in Hoff. split; [exact Hoff|].
    rewrite Hchunk, Hoff, !slice_16. subst hex.
    rewrite skipn_map, firstn_map. split; [reflexivity|].
    rewrite length_map, length_firstn, length_skipn. lia.
  - intros data' Hbytes' Heq. now apply toString_hex_inj.
Qed.

Lemma hexdump_covers_the_bytes_witness :
  let data := [60; 83; 69; 78; 68; 62; 10; 255; 0; 13; 10; 72; 98; 65; 49;
               99; 124]%N in
  let rows := Diagnostics.hexRows data in
  Diagnostics.match_pairs (Diagnostics.toString_hex data)
  = List.map Diagnostics.byteHex data
  /\ List.concat (List.map snd rows) = List.map Diagnostics.byteHex data
  /\ length (Diagnostics.hexdump data) = (length data + 15) / 16
  /\ (forall k row,
        nth_error rows k = Some row ->
        fst row = 16 * k
        /\ snd row
           = List.map Diagnostics.byteHex
               (Diagnostics.slice (16 * k) (16 * k + 16) data)
        /\ 1 <= length (snd row) <= 16)
  /\ (forall data',
        Diagnostics.bytes data' ->
        Diagnostics.toString_hex data = Diagnostics.toString_hex data' ->
        data = data').
Proof.
  intros data.
  apply (hexdump_covers_the_bytes data).
  unfold Diagnostics.bytes, data. repeat constructor.
Defined.

(** ** Messages that are cut short, and noise at the ceiling *)

Section Mishaps.

Variables R E : Type.
Variable parse : Framer -> jsstring -> E + R.

(** Noise that overflows inside a start delimiter hides the delimiter. *)
Lemma run_brim noise p1 x p2 rest :
  includes (noise ++ p1 ++ [x]) SEND_OPEN = false ->
  (strlen (noise ++ p1) <= CEILING)%Z ->
  (strlen (noise ++ p1 ++ [x]) > CEILING)%Z ->
  includes (p2 ++ rest) SEND_OPEN = false ->
  (strlen (p2 ++ rest) <= CEILING)%Z ->
  _onData parse fresh (noise ++ p1 ++ [x] ++ p2 ++ rest)
  = (mkFramer IDLE (p2 ++ rest), []).
Proof.
  intros Hno Hle Hgt Hno' Hle'.
  rewrite (app_assoc noise p1), (app_assoc (noise ++ p1) [x]) in *.
  rewrite run_app, run_app. unfold fresh at 1.
  rewrite run_idle_keep;
    [| eapply not_includes_prefix; eassumption | assumption].
  cbn [_onData app]. rewrite consume_overflow by assumption.
  unfold fresh. now rewrite run_idle_keep.
Qed.

Lemma run_brim_at noise p1 x p2 q s rest a b :
  SEND_OPEN = p1 ++ [x] ++ p2 ->
  removelast SEND_OPEN = (p1 ++ [x]) ++ q ->
  tl SEND_OPEN = s ++ p2 ->
  strlen p1 = a -> units x = 1%Z -> strlen p2 = b ->
  includes (noise ++ removelast SEND_OPEN) SEND_OPEN = false ->
  includes (tl SEND_OPEN ++ rest) SEND_OPEN = false ->
  (strlen noise + a <= CEILING)%Z ->
  (strlen noise + a + 1 > CEILING)%Z ->
  (b + strlen rest <= CEILING)%Z ->
  _onData parse fresh (noise ++ SEND_OPEN ++ rest)
  = (mkFramer IDLE (p2 ++ rest), []).
Proof.
  intros Ho Hr Ht Hp1 Hx Hp2 Hno Htl Hle Hgt Hfit.
  rewrite Ho, <- !app_assoc. apply run_brim.
  - rewrite Hr, app_assoc in Hno. now apply not_includes_prefix in Hno.
  - rewrite strlen_app. lia.
  - rewrite (app_assoc noise), strlen_snoc, strlen_app. lia.
  - rewrite Ht, <- app_assoc in Htl. now apply not_includes_suffix in Htl.
  - rewrite strlen_app. lia.
Qed.

End Mishaps.

(** X14. A message that is cut short swallows the next one: while a
    message is in progress a start delimiter is not looked for, so when a
    complete message arrives after a partial one, and no end delimiter
    comes before its own and the whole stays under the ceiling, the one
    text emitted is the partial message followed by the complete one.
    This holds from the state the partial message leaves behind, and for
    the stream as a whole. *)
Theorem cut_message_swallows_the_next {R E}
    (parse : Framer -> jsstring -> E + R) (partial m : jsstring) :
  startsWith partial SEND_OPEN = true ->
  complete_message m = true ->
  includes (partial ++ removelast m) SEND_CLOSE = false ->
  (strlen (partial ++ removelast m) <= CEILING)%Z ->
  _onData parse fresh partial = (mkFramer RECEIVING partial, [])
  /\ _onData parse (mkFramer RECEIVING partial) m
     = (fresh, _handleCompleteMessage parse fresh (partial ++ m))
  /\ _onData parse fresh (partial ++ m)
     = (fresh, _handleCompleteMessage parse fresh (partial ++ m)).
Proof.
  intros Hstart Hm Hno Hlen.
  assert (Hclean : includes partial SEND_CLOSE = false)
    by (eapply not_includes_prefix; eassumption).
  assert (Hfit : (strlen partial <= CEILING)%Z).
  { rewrite strlen_app in Hlen. pose proof (strlen_nonneg (removelast m)). lia. }
  destruct (complete_message_inv m Hm) as [mid [c [-> [_ Hyes]]]].
  rewrite app_assoc, removelast_last in Hno, Hlen.
  assert (Hrun : _onData parse (mkFramer RECEIVING partial)
                   (SEND_OPEN ++ mid ++ [c])
                 = (fresh, _handleCompleteMessage parse fresh
                             (partial ++ SEND_OPEN ++ mid ++ [c]))).
  { rewrite (app_assoc SEND_OPEN), run_app, run_receiving_keep by assumption.
    cbn [_onData]. rewrite consume_end.
    - cbn [app]. now rewrite app_nil_r, <- !app_assoc.
    - apply includes_iff in Hyes as [a [b Hab]].
      apply includes_iff. exists (partial ++ a), b.
      rewrite <- !app_assoc. f_equal. exact Hab. }
  apply startsWith_iff in Hstart as [body ->].
  assert (Hpart : _onData parse fresh (SEND_OPEN ++ body)
                  = (mkFramer RECEIVING (SEND_OPEN ++ body), [])).
  { rewrite run_app, run_open. cbv beta iota.
    now rewrite run_receiving_keep by assumption. }
  split; [exact Hpart|]. split; [exact Hrun|].
  rewrite (run_app _ _ parse fresh (SEND_OPEN ++ body)), Hpart.
  cbv beta iota. rewrite Hrun. reflexivity.
Qed.

Lemma cut_message_swallows_the_next_witness :
  let partial := lit "<SEND><R>HbA1c|5" in
  let m := lit "<SEND><R>HbA1c|7</R></SEND>" in
  _onData echo fresh partial = (mkFramer RECEIVING partial, [])
  /\ _onData echo (mkFramer RECEIVING partial) m
     = (fresh, _handleCompleteMessage echo fresh (partial ++ m))
  /\ _onData echo fresh (partial ++ m)
     = (fresh, _handleCompleteMessage echo fresh (partial ++ m)).
Proof.
  apply (cut_message_swallows_the_next echo (lit "<SEND><R>HbA1c|5")
           (lit "<SEND><R>HbA1c|7</R></SEND>")); now vm_compute.
Defined.

(** X15. Noise can hide a message.  Characters outside a message pile up
    in the buffer; when they fill it to within five characters of the
    ceiling, the overflow reset falls inside the start delimiter of the
    message that follows, the delimiter is never seen, and the message
    (which holds no other start delimiter and fits under the ceiling) is
    lost without any event: what is left of it sits in the buffer of the
    idle framer. *)
Theorem noise_at_the_brim_hides_a_message {R E}
    (parse : Framer -> jsstring -> E + R) (noise m : jsstring) :
  includes (noise ++ removelast SEND_OPEN) SEND_OPEN = false ->
  (strlen noise <= CEILING)%Z ->
  (CEILING < strlen (noise ++ removelast SEND_OPEN))%Z ->
  complete_message m = true ->
  includes (tl m) SEND_OPEN = false ->
  (strlen m <= CEILING)%Z ->
  exists k, k < 5
    /\ strlen noise = (CEILING - Z.of_nat k)%Z
    /\ _onData parse fresh (noise ++ m) = (mkFramer IDLE (skipn (S k) m), []).
Proof.
  intros Hno Hle Hgt Hm Htl Hfit.
  destruct (complete_message_inv m Hm) as [mid [c [-> _]]].
  rewrite strlen_app in Hgt.
  change (strlen (removelast SEND_OPEN)) with 5%Z in Hgt.
  rewrite strlen_app in Hfit.
  change (strlen SEND_OPEN) with 6%Z in Hfit.
  pose proof (strlen_nonneg (mid ++ [c])) as Hpos.
  set (rest := mid ++ [c]) in *.
  change (tl (SEND_OPEN ++ rest)) with (tl SEND_OPEN ++ rest) in Htl.
  exists (Z.to_nat (CEILING - strlen noise)).
  split; [unfold CEILING in *; lia|]. split; [unfold CEILING in *; lia|].
  assert (Hk : Z.to_nat (CEILING - strlen noise) = 0
               \/ Z.to_nat (CEILING - strlen noise) = 1
               \/ Z.to_nat (CEILING - strlen noise) = 2
               \/ Z.to_nat (CEILING - strlen noise) = 3
               \/ Z.to_nat (CEILING - strlen noise) = 4)
    by (unfold CEILING in *; lia).
  destruct Hk as [Hk | [Hk | [Hk | [Hk | Hk]]]]; rewrite Hk.
  - apply (run_brim_at _ _ parse noise [] (chr "<") (lit "SEND>")
             (lit "SEND") [] rest 0%Z 5%Z);
      try reflexivity; try assumption; unfold CEILING in *; lia.
  - apply (run_brim_at _ _ parse noise (lit "<") (chr "S") (lit "END>")
             (lit "END") (lit "S") rest 1%Z 4%Z);
      try reflexivity; try assumption; unfold CEILING in *; lia.
  - apply (run_brim_at _ _ parse noise (lit "<S") (chr "E") (lit "ND>")
             (lit "ND") (lit "SE") rest 2%Z 3%Z);
      try reflexivity; try assumption; unfold CEILING in *; lia.
  - apply (run_brim_at _ _ parse noise (lit "<SE") (chr "N") (lit "D>")
             (lit "D") (lit "SEN") rest 3%Z 2%Z);
      try reflexivity; try assumption; unfold CEILING in *; lia.
  - apply (run_brim_at _ _ parse noise (lit "<SEN") (chr "D") (lit ">")
             [] (lit "SEND") rest 4%Z 1%Z);
      try reflexivity; try assumption; unfold CEILING in *; lia.
Qed.

Lemma noise_at_the_brim_hides_a_message_witness :
  exists k, k < 5
    /\ strlen (replicate 99998 (chr "x")) = (CEILING - Z.of_nat k)%Z
    /\ _onData echo fresh
         (replicate 99998 (chr "x") ++ lit "<SEND><R>HbA1c|7</R></SEND>")
       = (mkFramer IDLE (skipn (S k) (lit "<SEND><R>HbA1c|7</R></SEND>")), []).
Proof.
  apply (noise_at_the_brim_hides_a_message echo (replicate 99998 (chr "x"))
           (lit "<SEND><R>HbA1c|7</R></SEND>")); now vm_compute.
Defined.

(** ** From the wire to the records *)

(** X16. With the decoder of the source, whatever the clock says at each
    message, the interface never emits an [error] for a message: any chunks
    give one [results] event per framed message, in order, and the [raw]
    text of each record is that message, which starts with the start
    delimiter, ends with the end delimiter, holds the end delimiter once
    and is a slice of the input. *)
Theorem wire_to_records
    (parse : Framer -> jsstring -> throws DecodedResult)
    (chunks : list jsstring) :
  (forall this m, exists now, parse this m = parseProtocol now m) ->
  exists records,
    snd (feed parse fresh chunks) = List.map emit_results records
    /\ List.map raw records = frames fresh chunks
    /\ Forall (fun r => well_framed (raw r) = true
                        /\ exists a b, List.concat chunks = a ++ raw r ++ b)
         records.
Proof.
  intros Hclock. rewrite feed_frames. cbn [snd].
  destruct (frames_inv chunks) as [_ Hall].
  induction Hall as [|m ms Hm _ IH].
  - exists []. repeat split. constructor.
  - destruct IH as [records [Hev [Hraw Hrec]]].
    destruct (Hclock fresh m) as [now Hnow].
    destruct (parseProtocol_total now m) as [mi [si [res [_ [_ [_ Hp]]]]]].
    eexists (_ :: records). cbn [flat_map List.map].
    unfold _handleCompleteMessage at 1. rewrite Hnow, Hp, Hev.
    split; [reflexivity|]. cbn [raw]. split; [now rewrite Hraw|].
    constructor; [exact Hm | exact Hrec].
Qed.

Lemma wire_to_records_witness :
  exists records,
    snd (feed (method_parseProtocol (lit "2024-01-01T10:00:00.000Z")) fresh
           [lit "noise<SEN"; lit "D><R>HbA1c|5.4</R></SE"; lit "ND>"])
    = List.map emit_results records
    /\ List.map raw records
       = frames fresh
           [lit "noise<SEN"; lit "D><R>HbA1c|5.4</R></SE"; lit "ND>"]
    /\ Forall (fun r => well_framed (raw r) = true
                        /\ exists a b,
                             List.concat
                               [lit "noise<SEN"; lit "D><R>HbA1c|5.4</R></SE";
                                lit "ND>"]
                             = a ++ raw r ++ b)
         records.
Proof.
  apply (wire_to_records
           (method_parseProtocol (lit "2024-01-01T10:00:00.000Z"))).
  intros this m. now exists (lit "2024-01-01T10:00:00.000Z").
Defined.
